(** * brown: scene graph, flowable rendering and anchored points

    A shallow embedding of [brown/core/graphic_object.py],
    [brown/core/new_line.py] and [brown/utils/anchored_point.py].

    Conventions.
    - A [Unit] holds a Python number.  The scene and the renderer are
      embedded for integer-valued Units (Python [int], whose arithmetic is
      exact): such a Unit is carried as its value in the base unit, a [Z].
      A Unit may also hold a float; module [FloatUnits] carries the
      arithmetic of [NewLine] and of the renderer on binary64 numbers,
      where sums and differences are rounded.
    - Python objects live in a store indexed by their identity; sets of
      objects are finite sets of identities.
    - A Python call either returns or raises; [Timeout] only records that a
      walk along parent pointers was cut off by the fuel of the model. *)

From Stdlib Require Import ZArith Lia Ascii.
From Stdlib Require Floats.PrimFloat.
From stdpp Require Import base option list gmap sets strings.

Local Open Scope Z_scope.

(** ** Results of Python calls *)

Inductive exn :=
| NotImplementedError
| TypeError
| AttributeError
| KeyError
| IndexError
| OutOfBoundsError.

Inductive result (A : Type) :=
| Ok (a : A)
| Raise (e : exn)
| Timeout.
Arguments Ok {A} a.
Arguments Raise {A} e.
Arguments Timeout {A}.

#[global] Instance result_ret : MRet result := fun A a => Ok a.
#[global] Instance result_bind : MBind result := fun A B f m =>
  match m with
  | Ok a => f a
  | Raise e => Raise e
  | Timeout => Timeout
  end.

(** ** Points *)

Module Geometry.

(** Modelled from the spec: the [Point] class ([brown/utils/point.py]) is
    missing.  A point is [(x, y)], optionally with a page; arithmetic is
    componentwise.  The tests of [map_between_items] subtract page numbers
    as well, and a point built from two coordinates has page 0. *)
Record Point := mkPoint { px : Z; py : Z; ppage : Z }.

Definition Point2 (x y : Z) : Point := mkPoint x y 0.

Definition add (p q : Point) : Point :=
  mkPoint (px p + px q) (py p + py q) (ppage p + ppage q).

Definition sub (p q : Point) : Point :=
  mkPoint (px p - px q) (py p - py q) (ppage p - ppage q).

Definition neg (p : Point) : Point :=
  mkPoint (- px p) (- py p) (- ppage p).

Definition origin : Point := mkPoint 0 0 0.

#[global] Instance Point_eq_dec : EqDecision Point.
Proof. solve_decision. Defined.

End Geometry.
Export Geometry.

(** Identity of a Python object. *)
Abbreviation obj_id := nat (only parsing).

(** ** AnchoredPoint ([brown/utils/anchored_point.py]) *)

Module Anchored.

Record AnchoredPoint := mkAnchoredPoint {
  x : Z;
  y : Z;
  parent : option obj_id   (* a GraphicObject, or None *)
}.

(** The right operand of [+] and [-] is any Python value; only its type and,
    for anchored points, its fields are inspected. *)
Inductive operand :=
| OAnchoredPoint (p : AnchoredPoint)
| OPoint (p : Point)
| ONumber (z : Z).

(** [GraphicObject] defines no [__eq__]: parents are compared by identity. *)
Definition __add__ (self : AnchoredPoint) (other : operand)
  : result AnchoredPoint :=
  match other with
  | OAnchoredPoint o =>
      if decide (parent self ≠ parent o) then Raise AttributeError
      else Ok (mkAnchoredPoint (x self + x o) (y self + y o) (parent self))
  | _ => Raise TypeError
  end.

Definition __sub__ (self : AnchoredPoint) (other : operand)
  : result AnchoredPoint :=
  match other with
  | OAnchoredPoint o =>
      if decide (parent self ≠ parent o) then Raise AttributeError
      else Ok (mkAnchoredPoint (x self - x o) (y self - y o) (parent self))
  | _ => Raise TypeError
  end.


Definition from_point (point : Point) (parent : option obj_id)
  : AnchoredPoint :=
  mkAnchoredPoint (px point) (py point) parent.


End Anchored.

(** ** NewLine ([brown/core/new_line.py]) *)

Module Line.

(** Modelled from the spec: [Paper] and [Page] are missing; a page exposes
    the live width of its paper (printable width after margins). *)
Record Paper := mkPaper { live_width : Z }.
Record Page := mkPage { paper : Paper }.

Record NewLine := mkNewLine {
  pos : Point;                 (* top left corner of the line *)
  page : Page;
  flowable_frame_height : Z;   (* [self.flowable_frame.height] *)
  local_x : Z;
  offset_y : Z
}.

(** On integer-valued Units; [FloatUnits.length] is the same on floats. *)
Definition length (self : NewLine) : Z :=
  live_width (paper (page self)) - px (pos self).

Definition height (self : NewLine) : Z := flowable_frame_height self.

(** On integer-valued Units; [FloatUnits.doc_end_pos] is the same on
    floats. *)
Definition doc_end_pos (self : NewLine) : Point :=
  add (pos self) (Point2 (length self) (height self)).

End Line.

(** ** Layout controllers and the frame's position mapping *)

Module Controller.

(** Modelled from the spec: [LayoutController] is missing.  The renderer
    reads three things from a controller: its absolute position [pos] (a
    point with a page), the frame-local offset [x] where its line begins,
    and its [length]. *)
Record LayoutController := mkController {
  pos : Point;
  x : Z;
  length : Z
}.

(** A [NewLine] seen through that interface; its length is derived. *)
Definition of_NewLine (l : Line.NewLine) : LayoutController :=
  mkController (Line.pos l) (Line.local_x l) (Line.length l).

End Controller.
Abbreviation LayoutController := Controller.LayoutController.

Module Frame.

(** [layout_controllers\[i\]] *)
Definition controller_at (cs : list LayoutController) (i : nat)
  : result LayoutController :=
  match cs !! i with
  | Some c => Ok c
  | None => Raise IndexError
  end.

Definition line_end (c : LayoutController) : Z :=
  Controller.x c + Controller.length c.

(** The flowed range of the frame ends where its last line ends. *)
Definition total_length (cs : list LayoutController) : Z :=
  match last cs with
  | Some c => line_end c
  | None => 0
  end.

(** Index of the last controller whose local x is at most [x], scanning
    from index [i]; [found] is the best index so far. *)
Fixpoint last_index_le (x : Z) (cs : list LayoutController) (i : nat)
    (found : option nat) : option nat :=
  match cs with
  | [] => found
  | c :: cs' =>
      last_index_le x cs' (S i)
        (if decide (Controller.x c <= x) then Some i else found)
  end.

(** Modelled from the spec: [FlowableFrame._last_break_index_at] is missing
    (spec: lineIndexContaining).  It returns the index of the last controller
    whose local x is at most [x], and fails with OutOfBoundsError if [x] is
    negative or exceeds the total flowable length. *)
Definition _last_break_index_at (cs : list LayoutController) (x : Z)
  : result nat :=
  if decide (x < 0 ∨ total_length cs < x) then Raise OutOfBoundsError
  else match last_index_le x cs 0 None with
       | Some i => Ok i
       | None => Raise OutOfBoundsError
       end.

(** Modelled from the spec: [FlowableFrame._dist_to_line_end] is missing
    (spec: remainingWidthOnLine).  It relates [x] to the end
    [local_x + line_length] of the line that contains it.  The renderer
    multiplies the value by -1 to obtain the length of the first segment and
    takes the fast path when [breakable_width] plus the value is negative
    (the negative distance-to-line-end convention of the spec's algorithm),
    so the value is the offset of [x] from the line end, negative inside the
    line. *)
Definition _dist_to_line_end (cs : list LayoutController) (x : Z)
  : result Z :=
  i ← _last_break_index_at cs x;
  c ← controller_at cs i;
  Ok (x - line_end c).

(** Modelled from the spec: [FlowableFrame._map_to_doc] is missing (spec:
    mapLocalToAbsolute).  For the controller containing the local x, the
    result is the controller's absolute position plus
    [(localX - local_x, localY)]. *)
Definition _map_to_doc (cs : list LayoutController) (p : Point)
  : result Point :=
  i ← _last_break_index_at cs (px p);
  c ← controller_at cs i;
  Ok (add (Controller.pos c) (Point2 (px p - Controller.x c) (py p))).

(** The frame invariant of the data model: the first controller starts at
    local x 0, controllers are sorted by local x, contiguous and do not
    overlap.  [contiguous start cs]: the lines of [cs] follow one another
    from [start]. *)
Fixpoint contiguous (start : Z) (cs : list LayoutController) : Prop :=
  match cs with
  | [] => True
  | c :: cs' =>
      Controller.x c = start ∧ 0 <= Controller.length c ∧
      contiguous (line_end c) cs'
  end.

Definition well_formed (cs : list LayoutController) : Prop :=
  contiguous 0 cs.

#[global] Instance contiguous_dec start cs : Decision (contiguous start cs).
Proof.
  revert start; induction cs as [|c cs IH]; intros start; simpl;
    [left; exact I | ].
  destruct (decide (Controller.x c = start));
    destruct (decide (0 <= Controller.length c));
    destruct (IH (line_end c)); try (right; tauto); left; tauto.
Defined.

#[global] Instance well_formed_dec cs : Decision (well_formed cs) :=
  contiguous_dec 0 cs.

(** The breakable span of a node at local [x] with width [w] ends on the
    [k]-th line it lies on: it starts on line [i0] and ends on line
    [i0 + k - 1], a span ending exactly at a line's end ending on that
    line.  A span that runs past the end of the last line ends on no line
    of the frame. *)
Definition span_covers (cs : list LayoutController) (x w : Z) (k : nat)
  : bool :=
  match _last_break_index_at cs x, k with
  | Ok i0, S k' =>
      match cs !! (i0 + k')%nat with
      | Some c =>
          (match k' with
           | O => true
           | S _ => bool_decide (Controller.x c < x + w)
           end) && bool_decide (x + w <= line_end c)
      | None => false
      end
  | _, _ => false
  end.


End Frame.

(** ** The scene graph ([brown/core/graphic_object.py]) *)

Module Scene.

(** The four rendering operations a subclass may override. *)
Inductive RenderOp :=
| OpComplete
| OpBeforeBreak
| OpAfterBreak
| OpSpanningContinuation.

#[global] Instance RenderOp_eq_dec : EqDecision RenderOp.
Proof. solve_decision. Defined.

(** A concrete subclass of [GraphicObject]: which operations it overrides. *)
Record GraphicClass := mkClass {
  overrides_complete : bool;
  overrides_before_break : bool;
  overrides_after_break : bool;
  overrides_spanning_continuation : bool
}.

Definition overrides (c : GraphicClass) (op : RenderOp) : bool :=
  match op with
  | OpComplete => overrides_complete c
  | OpBeforeBreak => overrides_before_break c
  | OpAfterBreak => overrides_after_break c
  | OpSpanningContinuation => overrides_spanning_continuation c
  end.

(** What [type(obj).__name__] distinguishes: the document root, which has no
    [parent] attribute; a [FlowableFrame], which owns layout controllers; any
    other graphic object. *)
Inductive kind :=
| Document
| FlowableFrame (layout_controllers : list LayoutController)
| Graphic.

Record object := mkObject {
  type : kind;
  cls : GraphicClass;
  pos : Point;
  breakable_width : Z;
  parent : option obj_id;      (* [_parent]; [None] before it is first set *)
  children : gset obj_id
}.

Abbreviation store := (gmap obj_id object).

Definition get (s : store) (i : obj_id) : result object :=
  match s !! i with
  | Some o => Ok o
  | None => Raise AttributeError
  end.

Definition with_parent (o : object) (p : option obj_id) : object :=
  mkObject (type o) (cls o) (pos o) (breakable_width o) p (children o).

Definition with_children (o : object) (c : gset obj_id) : object :=
  mkObject (type o) (cls o) (pos o) (breakable_width o) (parent o) c.

(** *** Children registration and the parent setter *)

(** [self.children.add(child)] *)
Definition _register_child (s : store) (self child : obj_id) : result store :=
  o ← get s self;
  Ok (<[self := with_children o (children o ∪ {[child]})]> s).

(** [self.children.remove(child)]; [set.remove] raises KeyError when the
    element is absent. *)
Definition _unregister_child (s : store) (self child : obj_id)
  : result store :=
  o ← get s self;
  if decide (child ∈ children o)
  then Ok (<[self := with_children o (children o ∖ {[child]})]> s)
  else Raise KeyError.

(** The setter of [parent]; [document] is the global [brown.document]. *)
Definition set_parent (document : obj_id) (s : store) (self : obj_id)
    (value : option obj_id) : result store :=
  o ← get s self;
  s1 ← match parent o with
       | Some old => _unregister_child s old self
       | None => Ok s
       end;
  let value := default document value in
  o1 ← get s1 self;
  let s2 := <[self := with_parent o1 (Some value)]> s1 in
  _register_child s2 value self.

(** *** Descendants *)

Definition children_of (s : store) (self : obj_id) : result (list obj_id) :=
  o ← get s self;
  Ok (elements (children o)).

(** The generator [all_descendants], as the list of what it yields. *)
Fixpoint all_descendants_loop (s : store) (cs : list obj_id)
  : result (list obj_id) :=
  match cs with
  | [] => Ok []
  | child :: rest =>
      subchildren ← children_of s child;
      more ← all_descendants_loop s rest;
      Ok (subchildren ++ child :: more)
  end.

Definition all_descendants (s : store) (self : obj_id)
  : result (list obj_id) :=
  cs ← children_of s self;
  all_descendants_loop s cs.

(** [d] is a transitive child of [a]: a child, or a child of a transitive
    child. *)
Inductive descendant (s : store) (a : obj_id) : obj_id → Prop :=
| descendant_child o c :
    s !! a = Some o → c ∈ children o → descendant s a c
| descendant_step o m c :
    descendant s a m → s !! m = Some o → c ∈ children o → descendant s a c.

(** *** The frame of an object *)

(** The loop of [frame]: follow [parent] until a FlowableFrame is met; any
    AttributeError (the document and [None] have no [parent]) gives [None].
    An identity outside the store stands for no object and is treated like
    [None]. *)
Fixpoint frame_loop (fuel : nat) (s : store) (ancestor : option obj_id)
  : result (option obj_id) :=
  match fuel with
  | O => Timeout
  | S fuel' =>
      match ancestor with
      | None => Ok None
      | Some a =>
          match s !! a with
          | None => Ok None
          | Some o =>
              match type o with
              | FlowableFrame _ => Ok (Some a)
              | Document => Ok None
              | Graphic => frame_loop fuel' s (parent o)
              end
          end
      end
  end.

(** The property [frame] of a graphic object; the document itself is not a
    graphic object and lies in no frame. *)
Definition frame (fuel : nat) (s : store) (self : obj_id)
  : result (option obj_id) :=
  match s !! self with
  | Some o =>
      match type o with
      | Document => Ok None
      | _ => frame_loop fuel s (parent o)
      end
  | None => Ok None
  end.

Definition is_in_flowable (fuel : nat) (s : store) (self : obj_id)
  : result bool :=
  f ← frame fuel s self;
  Ok (bool_decide (f ≠ None)).

Definition layout_controllers (s : store) (f : obj_id)
  : result (list LayoutController) :=
  o ← get s f;
  match type o with
  | FlowableFrame cs => Ok cs
  | _ => Raise AttributeError
  end.

(** *** Positions *)

(** Modelled from the spec: [FlowableFrame.pos_in_frame_of] is missing
    (spec: localPositionOf).  It sums the local positions along the parent
    chain of the node up to, but not including, the frame. *)
Fixpoint pos_in_frame_of (fuel : nat) (s : store) (f : obj_id)
    (node : obj_id) : result Point :=
  match fuel with
  | O => Timeout
  | S fuel' =>
      if decide (node = f) then Ok origin
      else
        o ← get s node;
        match type o, parent o with
        | Document, _ | _, None => Raise AttributeError
        | _, Some p =>
            rest ← pos_in_frame_of fuel' s f p;
            Ok (add (pos o) rest)
        end
  end.

(** Sum of the local positions along the owning chain up to the document. *)
Fixpoint chain_pos (fuel : nat) (s : store) (node : obj_id) : result Point :=
  match fuel with
  | O => Timeout
  | S fuel' =>
      o ← get s node;
      match type o, parent o with
      | Document, _ => Ok origin
      | _, None => Raise AttributeError
      | _, Some p =>
          rest ← chain_pos fuel' s p;
          Ok (add (pos o) rest)
      end
  end.

(** Modelled from the spec: [Document.doc_pos_of] is missing.  The absolute
    position is the sum of the local positions along the owning chain up to
    the document root, short-circuited through the frame's own position
    mapping when an ancestor is a frame. *)
Definition doc_pos_of (fuel : nat) (s : store) (node : obj_id)
  : result Point :=
  fr ← frame fuel s node;
  match fr with
  | Some f =>
      cs ← layout_controllers s f;
      p ← pos_in_frame_of fuel s f node;
      Frame._map_to_doc cs p
  | None => chain_pos fuel s node
  end.

(** The owning chain of [node] reaches the document root within [k] steps,
    through graphic objects that lie outside every frame. *)
Fixpoint reaches_document (k : nat) (s : store) (node : obj_id) : bool :=
  match s !! node with
  | Some o =>
      match type o, k, parent o with
      | Document, _, _ => true
      | Graphic, S k', Some p => reaches_document k' s p
      | _, _, _ => false
      end
  | None => false
  end.

Definition map_between_items (fuel : nat) (s : store)
    (source destination : obj_id) : result Point :=
  d ← doc_pos_of fuel s destination;
  src ← doc_pos_of fuel s source;
  Ok (sub d src).

(** *** Construction and the parent/children index *)

(** [GraphicObject.__init__] for a new object [self]: no breakable width
    means 0, the children start empty, and the parent is assigned through
    the setter, which finds no [_parent] attribute yet. *)
Definition __init__ (document : obj_id) (s : store) (self : obj_id)
    (c : GraphicClass) (pos : Point) (breakable_width : option Z)
    (parent : option obj_id) : result store :=
  let o := mkObject Graphic c pos (default 0 breakable_width) None ∅ in
  set_parent document (<[self := o]> s) self parent.

(** The object [o] stored at [n] is listed by its parent, if it has one. *)
Definition registered (s : store) (n : obj_id) (o : object) : Prop :=
  match parent o with
  | Some p =>
      match s !! p with
      | Some op => n ∈ children op
      | None => False
      end
  | None => True
  end.

(** Every child listed by [op], stored at [p], has [p] as its parent. *)
Definition owns (s : store) (p : obj_id) (op : object) : Prop :=
  set_Forall (λ c, match s !! c with
                   | Some oc => parent oc = Some p
                   | None => False
                   end) (children op).

(** The children sets are the index of the parent fields. *)
Definition consistent (s : store) : Prop :=
  map_Forall (registered s) s ∧ map_Forall (owns s) s.

#[global] Instance registered_dec s n o : Decision (registered s n o).
Proof.
  unfold registered. destruct (parent o) as [p|]; [|apply _].
  destruct (s !! p); apply _.
Defined.

#[global] Instance owns_dec s p op : Decision (owns s p op).
Proof.
  unfold owns. apply set_Forall_dec. intros c.
  destruct (s !! c); apply _.
Defined.

#[global] Instance consistent_dec s : Decision (consistent s).
Proof. unfold consistent. apply _. Defined.

(** The object stored at [q] after [self], whose parent was [old], has been
    given the parent [v]: [self] leaves the children of [old] and joins
    those of [v], and only the parent field of [self] changes. *)
Definition reparented (self : obj_id) (old : option obj_id) (v : obj_id)
    (q : obj_id) (oq : object) : object :=
  let kept := if decide (Some q = old) then children oq ∖ {[self]}
              else children oq in
  mkObject (type oq) (cls oq) (pos oq) (breakable_width oq)
    (if decide (q = self) then Some v else parent oq)
    (if decide (q = v) then kept ∪ {[self]} else kept).

(** [f] is met by following [parent] from [n], every object before [f]
    being a plain graphic object. *)
Inductive parent_chain (s : store) : obj_id → obj_id → Prop :=
| parent_chain_direct n o f :
    s !! n = Some o → parent o = Some f → parent_chain s n f
| parent_chain_step n o p op f :
    s !! n = Some o → parent o = Some p →
    s !! p = Some op → type op = Graphic →
    parent_chain s p f → parent_chain s n f.

Definition is_frame (s : store) (f : obj_id) : Prop :=
  ∃ o cs, s !! f = Some o ∧ type o = FlowableFrame cs.

End Scene.

(** ** Rendering *)

Module Rendering.
Import Scene.

(** A call of one of the four rendering operations, with its arguments. *)
Inductive Dispatch :=
| RenderComplete (pos : Point)
| RenderBeforeBreak (local_start_x : Z) (start stop : Point)
| RenderAfterBreak (local_start_x : Z) (start stop : Point)
| RenderSpanningContinuation (local_start_x : Z) (start stop : Point).

Definition op_of (d : Dispatch) : RenderOp :=
  match d with
  | RenderComplete _ => OpComplete
  | RenderBeforeBreak _ _ _ => OpBeforeBreak
  | RenderAfterBreak _ _ _ => OpAfterBreak
  | RenderSpanningContinuation _ _ _ => OpSpanningContinuation
  end.

#[global] Instance Dispatch_eq_dec : EqDecision Dispatch.
Proof. solve_decision. Defined.

(** The calls issued so far, each with the object it is issued on, and how
    the computation ended. *)
Record Render (A : Type) := mkRender {
  trace : list (obj_id * Dispatch);
  outcome : result A
}.
Arguments mkRender {A} trace outcome.
Arguments trace {A} r.
Arguments outcome {A} r.

#[global] Instance Render_ret : MRet Render := fun A a => mkRender [] (Ok a).
#[global] Instance Render_bind : MBind Render := fun A B f m =>
  match outcome m with
  | Ok a => mkRender (trace m ++ trace (f a)) (outcome (f a))
  | Raise e => mkRender (trace m) (Raise e)
  | Timeout => mkRender (trace m) Timeout
  end.

Definition lift {A} (r : result A) : Render A := mkRender [] r.

(** The base implementations of [GraphicObject]. *)
Definition _render_complete (self : obj_id) (pos : Point) : Render unit :=
  lift (Raise NotImplementedError).

Definition _render_before_break (self : obj_id) (local_start_x : Z)
    (start stop : Point) : Render unit :=
  lift (Raise NotImplementedError).

Definition _render_after_break (self : obj_id) (local_start_x : Z)
    (start stop : Point) : Render unit :=
  lift (Raise NotImplementedError).

Definition _render_spanning_continuation (self : obj_id) (local_start_x : Z)
    (start stop : Point) : Render unit :=
  lift (Raise NotImplementedError).

Definition base_implementation (self : obj_id) (d : Dispatch) : Render unit :=
  match d with
  | RenderComplete p => _render_complete self p
  | RenderBeforeBreak l a b => _render_before_break self l a b
  | RenderAfterBreak l a b => _render_after_break self l a b
  | RenderSpanningContinuation l a b =>
      _render_spanning_continuation self l a b
  end.

(** Method resolution for a call on [self], an instance of class [c]: the
    call is recorded; an override draws the segment through the backend and
    returns, otherwise the base implementation runs. *)
Definition invoke (c : GraphicClass) (self : obj_id) (d : Dispatch)
  : Render unit :=
  mkRender [(self, d)] (Ok tt) ≫= λ _,
  if overrides c (op_of d) then mret tt else base_implementation self d.

(** The loop over the lines after the first one: it returns the line the
    tail is drawn on and the width that remains for it. *)
Fixpoint spanning_loop (o : object) (self : obj_id) (pos_in_flowable : Point)
    (lines : list LayoutController) (current_line : LayoutController)
    (remaining_x : Z) : Render (LayoutController * Z) :=
  match lines with
  | [] => mret (current_line, remaining_x)
  | line :: rest =>
      if decide (remaining_x > Controller.length line) then
        let render_start_pos :=
          mkPoint (px (Controller.pos line))
                  (py (Controller.pos line) + py pos_in_flowable)
                  (ppage (Controller.pos line)) in
        let render_end_pos :=
          add render_start_pos (Point2 (Controller.length line) 0) in
        invoke (cls o) self
          (RenderSpanningContinuation (breakable_width o - remaining_x)
             render_start_pos render_end_pos);;
        spanning_loop o self pos_in_flowable rest line
          (remaining_x - Controller.length line)
      else mret (line, remaining_x)
  end.

Definition _render_flowable (fuel : nat) (s : store) (self : obj_id)
  : Render unit :=
  o ← lift (get s self);
  fr ← lift (frame fuel s self);
  f ← lift (match fr with Some f => Ok f | None => Raise AttributeError end);
  cs ← lift (layout_controllers s f);
  pos_in_flowable ← lift (pos_in_frame_of fuel s f self);
  d ← lift (Frame._dist_to_line_end cs (px pos_in_flowable));
  let remaining_x := breakable_width o + d in
  if decide (remaining_x < 0) then
    p ← lift (doc_pos_of fuel s self);
    invoke (cls o) self (RenderComplete p)
  else
    first_line_i ← lift (Frame._last_break_index_at cs (px pos_in_flowable));
    current_line ← lift (Frame.controller_at cs first_line_i);
    render_start_pos ← lift (doc_pos_of fuel s self);
    d' ← lift (Frame._dist_to_line_end cs (px pos_in_flowable));
    let first_line_length := d' * -1 in
    let render_end_pos := add render_start_pos (Point2 first_line_length 0) in
    invoke (cls o) self (RenderBeforeBreak 0 render_start_pos render_end_pos);;
    '(current_line, remaining_x) ←
      spanning_loop o self pos_in_flowable (drop (S first_line_i) cs)
        current_line remaining_x;
    render_start_pos ←
      lift (Frame._map_to_doc cs
              (Point2 (Controller.x current_line) (py pos_in_flowable)));
    let render_end_pos := add render_start_pos (Point2 remaining_x 0) in
    invoke (cls o) self
      (RenderAfterBreak (breakable_width o - remaining_x)
         render_start_pos render_end_pos).

(** The object's own part of [render]. *)
Definition render_self (fuel : nat) (s : store) (self : obj_id)
  : Render unit :=
  o ← lift (get s self);
  b ← lift (is_in_flowable fuel s self);
  if b : bool then _render_flowable fuel s self
  else
    p ← lift (doc_pos_of fuel s self);
    invoke (cls o) self (RenderComplete p).

Fixpoint for_each (l : list obj_id) (body : obj_id → Render unit)
  : Render unit :=
  match l with
  | [] => mret tt
  | i :: l' => body i;; for_each l' body
  end.

(** [render]: [fuel] bounds the walks along parent pointers, [depth] the
    recursion into children. *)
Fixpoint render (fuel depth : nat) (s : store) (self : obj_id)
  : Render unit :=
  match depth with
  | O => lift Timeout
  | S depth' =>
      render_self fuel s self;;
      cs ← lift (children_of s self);
      for_each cs (render fuel depth' s)
  end.

(** The recursion of [render] into the children. *)
Definition render_children (fuel depth : nat) (s : store) (self : obj_id)
  : Render unit :=
  cs ← lift (children_of s self);
  for_each cs (render fuel depth s).

(** The segments of a split node, for a node of breakable width [w] at
    frame-local position [p]: the first segment on line [c0], a full line
    [c], and the tail on line [cl]. *)
Definition before_break_segment (p : Point) (c0 : LayoutController)
  : Dispatch :=
  let start := add (Controller.pos c0)
                   (Point2 (px p - Controller.x c0) (py p)) in
  RenderBeforeBreak 0 start (add start (Point2 (Frame.line_end c0 - px p) 0)).




(** The object [o] stored at [self] lies inside a frame whose controllers
    are [cs], at frame-local position [p]. *)
Definition placed (fuel : nat) (s : store) (self : obj_id) (o : object)
    (cs : list LayoutController) (p : Point) : Prop :=
  ∃ f, s !! self = Some o ∧ frame fuel s self = Ok (Some f) ∧
       layout_controllers s f = Ok cs ∧
       pos_in_frame_of fuel s f self = Ok p.

(** Every call of [m] is issued on an object that satisfies [P]. *)
Definition targets_only {A} (P : obj_id → Prop) (m : Render A) : Prop :=
  Forall (λ e, P e.1) (trace m).

(** The calls issued on [self] itself. *)
Definition dispatches_on (self : obj_id) (t : list (obj_id * Dispatch))
  : list Dispatch :=
  (filter (λ e, e.1 = self) t).*2.




End Rendering.

(** ** Units that hold floats *)

#[local] Set Warnings "-inexact-float".

Module FloatUnits.
Import PrimFloat.

(** A Unit that holds a Python float holds a binary64 number, and its
    sums, differences and products are rounded.  These are [NewLine] and
    the width arithmetic of [_render_flowable] on such Units. *)

Record Point := mkPoint { px : float; py : float; ppage : Z }.

Definition Point2 (x y : float) : Point := mkPoint x y 0.

Definition add (p q : Point) : Point :=
  mkPoint (px p + px q)%float (py p + py q)%float (ppage p + ppage q).

Record NewLine := mkNewLine {
  pos : Point;
  live_width : float;              (* [self.page.paper.live_width] *)
  flowable_frame_height : float    (* [self.flowable_frame.height] *)
}.

Definition length (self : NewLine) : float :=
  (live_width self - px (pos self))%float.

Definition height (self : NewLine) : float := flowable_frame_height self.

Definition doc_end_pos (self : NewLine) : Point :=
  add (pos self) (Point2 (length self) (height self)).




End FloatUnits.

(** ** Interval ([brown/models/interval.py]) *)

Module Interval.

(** A specifier is a string of characters with code points below 256; among
    these the characters matched by the digit class are the ten ASCII
    digits. *)

Inductive raised :=
| InvalidIntervalError
| KeyError.

Definition is_digit (c : ascii) : bool :=
  bool_decide (48 ≤ nat_of_ascii c ≤ 57)%nat.

Definition is_nonzero_digit (c : ascii) : bool :=
  bool_decide (49 ≤ nat_of_ascii c ≤ 57)%nat.

Definition newline : ascii := "010"%char.

(** The end of the pattern: digits up to the end of the string, or up to a
    newline that ends the string (the end anchor also matches just before a
    final newline). *)
Fixpoint match_digits_end (s : string) : option (list ascii) :=
  match s with
  | EmptyString => Some []
  | String c rest =>
      if is_digit c then cons c <$> match_digits_end rest
      else if bool_decide (c = newline ∧ rest = EmptyString) then Some []
      else None
  end.

(** [_shorthand_regex.match]: the three groups of a match, or no match.
    The pattern is anchored at both ends and has three groups: one of the
    letters a, d; one of the letters m, M, P, d, A; a digit from 1 to 9
    followed by any number of digits. *)
Definition _shorthand_regex_match (specifier : string)
  : option (ascii * ascii * list ascii) :=
  match specifier with
  | String d (String q (String n rest)) =>
      if bool_decide (d ∈ ["a"; "d"]%char)
         && bool_decide (q ∈ ["m"; "M"; "P"; "d"; "A"]%char)
         && is_nonzero_digit n
      then (λ ds, (d, q, n :: ds)) <$> match_digits_end rest
      else None
  | _ => None
  end.

(** [int] of a string of digits, without a bound on their number (CPython
    from 3.11 on refuses more than 4300 digits by default). *)
Definition int (digits : list ascii) : Z :=
  foldl (λ acc c, 10 * acc + (Z.of_nat (nat_of_ascii c) - 48)) 0 digits.

Record Interval := mkInterval {
  direction : ascii;
  quality : ascii;
  distance : Z
}.

Definition simple_distance (self : Interval) : Z :=
  ((distance self - 1) `mod` 7) + 1.

Definition _perfectable_distances : list Z := [1; 4; 5].

Definition __init__ (specifier : string) : raised + Interval :=
  match _shorthand_regex_match specifier with
  | None => inl InvalidIntervalError
  | Some (direction, quality, digits) =>
      let self := mkInterval direction quality (int digits) in
      if bool_decide (simple_distance self ∈ _perfectable_distances)
         && negb (bool_decide (quality ∈ ["P"; "d"; "A"]%char))
      then inl InvalidIntervalError
      else inr self
  end.

Definition direction_as_int (self : Interval) : Z :=
  if bool_decide (direction self = "d"%char) then -1 else 1.

(** [qualities_in_english\[self._quality\]] *)
Definition quality_in_english (self : Interval) : raised + string :=
  if bool_decide (quality self = "m"%char) then inr "minor"%string
  else if bool_decide (quality self = "M"%char) then inr "Major"%string
  else if bool_decide (quality self = "d"%char) then inr "diminished"%string
  else if bool_decide (quality self = "A"%char) then inr "Augmented"%string
  else inl KeyError.

End Interval.

(** ** Example scenes *)

Module Examples.
Import Scene Rendering.

(** A class that overrides the four operations, one that overrides only the
    full render, and one that overrides none. *)
Definition all_ops : GraphicClass := mkClass true true true true.
Definition complete_only : GraphicClass := mkClass true false false false.
Definition no_ops : GraphicClass := mkClass false false false false.

(** Line 1 has length 100 and starts at absolute (0, 0) on page 0, line 2
    has length 80 and starts at (0, 50) on page 0, line 3 has length 60 and
    starts at (0, 100) on page 0. *)
Definition line1 := Controller.mkController (mkPoint 0 0 0) 0 100.
Definition line2 := Controller.mkController (mkPoint 0 50 0) 100 80.
Definition two_lines : list LayoutController := [line1; line2].

(** The document (object 0), a frame (object 1) with controllers [cs], and
    in it a node (object 2) at local position [p] with breakable width
    [w]. *)
Definition node (p : Point) (w : Z) : object :=
  mkObject Graphic all_ops p w (Some 1%nat) ∅.

Definition scene (cs : list LayoutController) (p : Point) (w : Z) : store :=
  <[0%nat := mkObject Document no_ops origin 0 None {[1%nat]}]>
  (<[1%nat := mkObject (FlowableFrame cs) all_ops origin 0 (Some 0%nat)
                {[2%nat]}]>
  (<[2%nat := node p w]> ∅)).

(** The scene of the tests of [map_between_items]: under the document
    (0), a parent (1) at (100, 102) on page 7 with a child (2) at (5, 6) on
    page 1, and a top-level object (3) at (1, 1) on page 4. *)
Definition items : store :=
  <[0%nat := mkObject Document no_ops origin 0 None {[1%nat; 3%nat]}]>
  (<[1%nat := mkObject Graphic all_ops (mkPoint 100 102 7) 0 (Some 0%nat)
                {[2%nat]}]>
  (<[2%nat := mkObject Graphic all_ops (mkPoint 5 6 1) 0 (Some 1%nat) ∅]>
  (<[3%nat := mkObject Graphic all_ops (mkPoint 1 1 4) 0 (Some 0%nat) ∅]>
   ∅))).

(** A chain: the document (0), then objects 1, 2, 3 and 4, each the only
    child of the one before; object [i] sits at [(10 * i, i)]. *)
Definition link (i : nat) (child : gset obj_id) : object :=
  mkObject Graphic all_ops (Point2 (10 * Z.of_nat i) (Z.of_nat i)) 0
    (Some (pred i)) child.

Definition chain : store :=
  <[0%nat := mkObject Document no_ops origin 0 None {[1%nat]}]>
  (<[1%nat := link 1 {[2%nat]}]>
  (<[2%nat := link 2 {[3%nat]}]>
  (<[3%nat := link 3 {[4%nat]}]>
  (<[4%nat := link 4 ∅]> ∅)))).

(** A scene with a cycle: object 1 is its own parent and lists itself and
    object 2, which has parent 1. *)
Definition looped : store :=
  <[0%nat := mkObject Document no_ops origin 0 None ∅]>
  (<[1%nat := mkObject Graphic all_ops (Point2 10 1) 0 (Some 1%nat)
                {[1%nat; 2%nat]}]>
  (<[2%nat := link 2 ∅]> ∅)).

End Examples.

(** * Properties *)

(** ** Lines of a well-formed frame *)

Section FrameFacts.
Import Frame.

Implicit Types (cs : list LayoutController) (c : LayoutController).

Lemma last_index_le_spec xx cs : ∀ i found,
  (last_index_le xx cs i found = found ∧
   ∀ j c, cs !! j = Some c → xx < Controller.x c) ∨
  (∃ j c, last_index_le xx cs i found = Some (i + j)%nat ∧
     cs !! j = Some c ∧ Controller.x c <= xx ∧
     ∀ j' c', (j < j')%nat → cs !! j' = Some c' → xx < Controller.x c').
Proof.
  induction cs as [|c cs IH]; intros i found; simpl.
  - left. split; [done|]. intros j c H. by rewrite lookup_nil in H.
  - destruct (IH (S i) (if decide (Controller.x c <= xx) then Some i
                        else found)) as [[Hr Hall]|(j & c' & Hr & Hj & Hle & Hgt)].
    + rewrite Hr. case_decide as Hc.
      * right. exists 0%nat, c. rewrite Nat.add_0_r. repeat split; try done.
        intros [|j'] c'' Hlt Hl; [lia|]. simpl in Hl. eauto.
      * left. split; [done|]. intros [|j] c' Hl; simpl in Hl.
        -- inversion Hl; subst. lia.
        -- eauto.
    + right. exists (S j), c'. rewrite Hr. repeat split; try done.
      * f_equal. lia.
      * intros [|j'] c'' Hlt Hl; [lia|]. simpl in Hl.
        apply (Hgt j' c''); [lia|done].
Qed.

Lemma contiguous_start_le e cs j c :
  contiguous e cs → cs !! j = Some c → e <= Controller.x c.
Proof.
  revert e j. induction cs as [|c0 cs IH]; intros e j Hc Hl.
  - by rewrite lookup_nil in Hl.
  - destruct Hc as (Hx & Hlen & Hrest). destruct j as [|j]; simpl in Hl.
    + inversion Hl; subst. lia.
    + specialize (IH _ _ Hrest Hl). unfold line_end in IH. lia.
Qed.

Lemma contiguous_drop e cs i c :
  contiguous e cs → cs !! i = Some c →
  0 <= Controller.length c ∧ contiguous (line_end c) (drop (S i) cs).
Proof.
  revert e i. induction cs as [|c0 cs IH]; intros e i Hc Hl.
  - by rewrite lookup_nil in Hl.
  - destruct Hc as (Hx & Hlen & Hrest). destruct i as [|i]; simpl in Hl.
    + inversion Hl; subst. simpl. rewrite drop_0. by split.
    + destruct (IH _ _ Hrest Hl) as (H2 & H3). by split.
Qed.

Lemma contiguous_next e cs i c c' :
  contiguous e cs → cs !! i = Some c → cs !! S i = Some c' →
  Controller.x c' = line_end c.
Proof.
  intros Hc Hi Hs. destruct (contiguous_drop _ _ _ _ Hc Hi) as (_ & Hd).
  assert (Hh : drop (S i) cs !! 0%nat = Some c')
    by (rewrite lookup_drop; rewrite Nat.add_0_r; done).
  destruct (drop (S i) cs) as [|c'' l]; [done|].
  simpl in Hh. inversion Hh; subst. by destruct Hd.
Qed.

Lemma contiguous_later e cs i j c c' :
  contiguous e cs → cs !! i = Some c → cs !! j = Some c' → (i < j)%nat →
  line_end c <= Controller.x c'.
Proof.
  intros Hc Hi Hj Hlt. destruct (contiguous_drop _ _ _ _ Hc Hi) as (_ & Hd).
  apply (contiguous_start_le _ _ (j - S i) _ Hd).
  rewrite lookup_drop. by replace (S i + (j - S i))%nat with j by lia.
Qed.

Lemma contiguous_total e cs i c :
  contiguous e cs → cs !! i = Some c → line_end c <= total_length cs.
Proof.
  intros Hc Hi. unfold total_length.
  destruct (last cs) as [cl|] eqn:Hlast.
  - rewrite last_lookup in Hlast.
    assert (i < length cs)%nat by (by eapply lookup_lt_Some).
    destruct (decide (i = pred (length cs))) as [->|Hne].
    + rewrite Hi in Hlast. inversion Hlast; subst. lia.
    + pose proof (contiguous_later _ _ i (pred (length cs)) _ _ Hc Hi Hlast
                    ltac:(lia)).
      destruct (contiguous_drop _ _ _ _ Hc Hlast) as (Hlen & _).
      unfold line_end in *. lia.
  - apply last_None in Hlast. subst. by rewrite lookup_nil in Hi.
Qed.

End FrameFacts.

Section IndexFacts.
Import Frame.

Implicit Types (cs : list LayoutController) (c : LayoutController).


(** Inside a line of positive length the lookup returns that line. *)
Lemma last_break_index_at_intro cs xx j c :
  well_formed cs → cs !! j = Some c →
  Controller.x c <= xx < line_end c →
  _last_break_index_at cs xx = Ok j.
Proof.
  intros Hwf Hj [Hlo Hhi]. unfold _last_break_index_at.
  pose proof (contiguous_start_le _ _ _ _ Hwf Hj).
  pose proof (contiguous_total _ _ _ _ Hwf Hj).
  case_decide as Hr; [lia|].
  destruct (last_index_le_spec xx cs 0 None)
    as [[_ Hall]|(i & ci & Hi & Hl & Hle & Hgt)].
  - specialize (Hall _ _ Hj). lia.
  - rewrite Hi. simpl. f_equal.
    destruct (lt_eq_lt_dec i j) as [[Hlt|Heq]|Hlt]; [|done|].
    + specialize (Hgt _ _ Hlt Hj). lia.
    + pose proof (contiguous_later _ _ _ _ _ _ Hwf Hj Hl Hlt). lia.
Qed.

(** Every position of the flowed range has a line; before the end of the
    range it lies strictly inside that line. *)
Lemma last_break_index_at_total cs xx :
  well_formed cs → 0 <= xx < total_length cs →
  ∃ i c, _last_break_index_at cs xx = Ok i ∧ cs !! i = Some c ∧
         Controller.x c <= xx < line_end c.
Proof.
  intros Hwf [Hlo Hhi]. unfold _last_break_index_at.
  case_decide as Hr; [lia|].
  destruct cs as [|c0 cs']; [unfold total_length in Hhi; simpl in Hhi; lia|].
  assert (Hx0 : Controller.x c0 = 0) by (by destruct Hwf).
  remember (c0 :: cs') as cs eqn:Hcs.
  assert (H0 : cs !! 0%nat = Some c0) by (by subst).
  destruct (last_index_le_spec xx cs 0 None)
    as [[_ Hall]|(i & ci & Hi & Hl & Hle & Hgt)].
  - specialize (Hall _ _ H0). lia.
  - rewrite Hi. simpl. exists i, ci. repeat split; try done.
    destruct (cs !! S i) as [cn|] eqn:Hn.
    + rewrite <- (contiguous_next _ _ _ _ _ Hwf Hl Hn).
      apply (Hgt (S i)); [lia|done].
    + unfold total_length in Hhi. rewrite last_lookup in Hhi.
      apply lookup_ge_None in Hn.
      assert (i < length cs)%nat by (by eapply lookup_lt_Some).
      replace (pred (length cs)) with i in Hhi by lia.
      by rewrite Hl in Hhi.
Qed.

End IndexFacts.

(** ** The rendering monad *)

Section RenderFacts.
Import Scene Rendering.

Lemma bind_lift_ok {A B} (a : A) (k : A → Render B) :
  lift (Ok a) ≫= k = k a.
Proof. unfold mbind, Render_bind. simpl. by destruct (k a). Qed.

Lemma bind_ret {A B} (a : A) (k : A → Render B) : mret a ≫= k = k a.
Proof. apply bind_lift_ok. Qed.

Lemma bind_emit {A B} t (a : A) (k : A → Render B) :
  mkRender t (Ok a) ≫= k = mkRender (t ++ trace (k a)) (outcome (k a)).
Proof. done. Qed.

Lemma trace_bind_ok {A B} (m : Render A) (k : A → Render B) a :
  outcome m = Ok a →
  trace (m ≫= k) = trace m ++ trace (k a) ∧ outcome (m ≫= k) = outcome (k a).
Proof. intros H. unfold mbind, Render_bind. by rewrite H. Qed.

Lemma invoke_overridden c self d :
  overrides c (op_of d) = true → invoke c self d = mkRender [(self, d)] (Ok tt).
Proof. intros H. unfold invoke. rewrite bind_emit, H. done. Qed.

Lemma invoke_default c self d :
  overrides c (op_of d) = false →
  invoke c self d = mkRender [(self, d)] (Raise NotImplementedError).
Proof. intros H. unfold invoke. rewrite bind_emit, H. by destruct d. Qed.

Lemma render_unfold fuel depth s self :
  render fuel (S depth) s self =
  render_self fuel s self ≫= λ _, render_children fuel depth s self.
Proof. done. Qed.

End RenderFacts.

(** ** The split path of [_render_flowable] *)

Section SplitPath.
Import Scene Rendering Frame.

Implicit Types (cs mid : list LayoutController) (c : LayoutController).


Lemma dist_to_line_end_at cs xx i0 c0 :
  _last_break_index_at cs xx = Ok i0 → cs !! i0 = Some c0 →
  _dist_to_line_end cs xx = Ok (xx - line_end c0).
Proof.
  intros Hi Hc0. unfold _dist_to_line_end, controller_at.
  rewrite Hi. simpl. by rewrite Hc0.
Qed.

Lemma map_to_doc_at cs q i0 c0 :
  _last_break_index_at cs (px q) = Ok i0 → cs !! i0 = Some c0 →
  _map_to_doc cs q =
  Ok (add (Controller.pos c0) (Point2 (px q - Controller.x c0) (py q))).
Proof.
  intros Hi Hc0. unfold _map_to_doc, controller_at.
  rewrite Hi. simpl. by rewrite Hc0.
Qed.

Lemma doc_pos_of_placed fuel s self o cs p i0 c0 :
  placed fuel s self o cs p →
  _last_break_index_at cs (px p) = Ok i0 → cs !! i0 = Some c0 →
  doc_pos_of fuel s self =
  Ok (add (Controller.pos c0) (Point2 (px p - Controller.x c0) (py p))).
Proof.
  intros (f & Hs & Hf & Hcs & Hp) Hi Hc0. unfold doc_pos_of.
  rewrite Hf. simpl. rewrite Hcs. simpl. rewrite Hp. simpl.
  by apply map_to_doc_at with i0.
Qed.


(** The fast path: the span ends strictly before the end of its line. *)
Lemma render_flowable_fast fuel s self o cs p i0 c0 :
  placed fuel s self o cs p →
  _last_break_index_at cs (px p) = Ok i0 → cs !! i0 = Some c0 →
  px p + breakable_width o < line_end c0 →
  overrides (cls o) OpComplete = true →
  _render_flowable fuel s self =
  mkRender [(self, RenderComplete
                     (add (Controller.pos c0)
                          (Point2 (px p - Controller.x c0) (py p))))]
           (Ok tt).
Proof.
  intros Hpl Hi Hc0 Hfit Hov.
  pose proof (doc_pos_of_placed _ _ _ _ _ _ _ _ Hpl Hi Hc0) as Hdoc.
  destruct Hpl as (f & Hs & Hf & Hcs & Hp).
  unfold _render_flowable, get. rewrite Hs, bind_lift_ok.
  rewrite Hf, !bind_lift_ok. rewrite Hcs, bind_lift_ok.
  rewrite Hp, bind_lift_ok.
  rewrite (dist_to_line_end_at _ _ _ _ Hi Hc0), bind_lift_ok.
  case_decide as Hneg; [|lia].
  rewrite Hdoc, bind_lift_ok. by rewrite invoke_overridden.
Qed.

(** Inside a frame, [render] runs [_render_flowable] and then renders the
    children. *)
Lemma render_placed fuel depth s self o cs p :
  placed fuel s self o cs p →
  render fuel (S depth) s self =
  _render_flowable fuel s self ≫= λ _, render_children fuel depth s self.
Proof.
  intros (f & Hs & Hf & _). rewrite render_unfold. f_equal.
  unfold render_self, get, is_in_flowable. rewrite Hs, bind_lift_ok.
  rewrite Hf. cbn [mbind result_bind]. by rewrite bind_lift_ok.
Qed.

Lemma render_placed_trace fuel depth s self o cs p ds :
  placed fuel s self o cs p →
  _render_flowable fuel s self = mkRender (pair self <$> ds) (Ok tt) →
  trace (render fuel (S depth) s self) =
    (pair self <$> ds) ++ trace (render_children fuel depth s self) ∧
  outcome (render fuel (S depth) s self) =
    outcome (render_children fuel depth s self).
Proof.
  intros Hpl Hr. rewrite (render_placed _ _ _ _ _ _ _ Hpl), Hr.
  by rewrite bind_emit.
Qed.







End SplitPath.

(** ** Which objects a render pass calls *)

Section Targets.
Import Scene Rendering.

Context (P : obj_id → Prop).

Lemma targets_lift {A} (r : result A) : targets_only P (lift r).
Proof. apply Forall_nil_2. Qed.

Lemma targets_ret {A} (a : A) : targets_only P (mret a : Render A).
Proof. apply Forall_nil_2. Qed.

Lemma targets_bind {A B} (m : Render A) (k : A → Render B) :
  targets_only P m → (∀ a, targets_only P (k a)) →
  targets_only P (m ≫= k).
Proof.
  unfold targets_only, mbind, Render_bind. intros Hm Hk.
  destruct (outcome m); simpl; [|done..].
  apply Forall_app. split; [done|apply Hk].
Qed.

Lemma targets_invoke c self d : P self → targets_only P (invoke c self d).
Proof.
  intros HP. unfold invoke. apply targets_bind.
  - by apply Forall_cons_2; [|apply Forall_nil_2].
  - intros _. destruct (overrides c (op_of d)); [apply targets_ret|].
    destruct d; apply targets_lift.
Qed.

Lemma targets_spanning_loop o self p lines : ∀ cur remaining_x,
  P self → targets_only P (spanning_loop o self p lines cur remaining_x).
Proof.
  induction lines as [|line rest IH]; intros cur r HP; cbn [spanning_loop].
  - apply targets_ret.
  - case_decide; [|apply targets_ret].
    apply targets_bind; [by apply targets_invoke|]. intros _. by apply IH.
Qed.

Lemma targets_render_flowable fuel s self :
  P self → targets_only P (_render_flowable fuel s self).
Proof.
  intros HP. unfold _render_flowable.
  repeat (apply targets_bind; [apply targets_lift|intros ?]).
  case_decide.
  - apply targets_bind; [apply targets_lift|intros ?].
    by apply targets_invoke.
  - repeat (apply targets_bind; [apply targets_lift|intros ?]).
    apply targets_bind; [by apply targets_invoke|intros _].
    apply targets_bind; [by apply targets_spanning_loop|intros [c r]].
    apply targets_bind; [apply targets_lift|intros ?].
    by apply targets_invoke.
Qed.

Lemma targets_render_self fuel s self :
  P self → targets_only P (render_self fuel s self).
Proof.
  intros HP. unfold render_self.
  repeat (apply targets_bind; [apply targets_lift|intros ?]).
  match goal with b : bool |- _ => destruct b end.
  - by apply targets_render_flowable.
  - apply targets_bind; [apply targets_lift|intros ?].
    by apply targets_invoke.
Qed.

Lemma targets_for_each (l : list obj_id) (body : obj_id → Render unit) :
  (∀ c, c ∈ l → targets_only P (body c)) →
  targets_only P (for_each l body).
Proof.
  induction l as [|c l IH]; intros H; cbn [for_each].
  - apply targets_ret.
  - apply targets_bind; [apply H, elem_of_cons; by left|]. intros _.
    apply IH. intros c' Hc'. apply H, elem_of_cons. by right.
Qed.

End Targets.

Section Descendants.
Import Scene Rendering.

Lemma targets_weaken {A} (P Q : obj_id → Prop) (m : Render A) :
  (∀ i, P i → Q i) → targets_only P m → targets_only Q m.
Proof.
  intros H Hm. unfold targets_only. eapply Forall_impl; [exact Hm|].
  intros e. apply H.
Qed.

Lemma descendant_prepend s a o c t :
  s !! a = Some o → c ∈ children o → descendant s c t → descendant s a t.
Proof.
  intros Ha Hc Hd. induction Hd as [oc t Hoc Ht|om m t Hd IH Hm Ht].
  - eapply descendant_step; [by eapply descendant_child|done..].
  - eapply descendant_step; done.
Qed.

(** [render] calls the object and its transitive children only. *)
Lemma targets_render fuel depth : ∀ s self,
  targets_only (λ t, t = self ∨ descendant s self t)
    (render fuel depth s self).
Proof.
  induction depth as [|depth IH]; intros s self; [apply targets_lift|].
  rewrite render_unfold. apply targets_bind.
  - apply targets_render_self. by left.
  - intros _. unfold render_children, children_of, get.
    destruct (s !! self) as [o|] eqn:Ho; [|apply targets_lift].
    cbn [mbind result_bind]. rewrite bind_lift_ok.
    apply targets_for_each. intros c Hc. apply elem_of_elements in Hc.
    eapply targets_weaken; [|apply IH]. intros t [->|Ht]; right.
    + by eapply descendant_child.
    + by eapply descendant_prepend.
Qed.

Lemma targets_render_children fuel depth s self :
  targets_only (descendant s self) (render_children fuel depth s self).
Proof.
  unfold render_children, children_of, get.
  destruct (s !! self) as [o|] eqn:Ho; [|apply targets_lift].
  cbn [mbind result_bind]. rewrite bind_lift_ok.
  apply targets_for_each. intros c Hc. apply elem_of_elements in Hc.
  eapply targets_weaken; [|apply targets_render]. intros t [->|Ht].
  - by eapply descendant_child.
  - by eapply descendant_prepend.
Qed.

Lemma dispatches_on_own self ds :
  dispatches_on self (pair self <$> ds) = ds.
Proof.
  unfold dispatches_on. induction ds as [|d ds IH]; [done|].
  rewrite fmap_cons, filter_cons_True by done.
  rewrite fmap_cons. by rewrite IH.
Qed.

Lemma dispatches_on_others self (P : obj_id → Prop) t :
  Forall (λ e, P e.1) t → ¬ P self → dispatches_on self t = [].
Proof.
  intros Ht HP. unfold dispatches_on.
  induction Ht as [|e t He Ht IH]; [done|].
  rewrite filter_cons_False; [done|]. intros Heq. apply HP. by rewrite <- Heq.
Qed.

(** In a scene where [self] is not its own transitive child, the calls of
    [render] on [self] are those of its own part. *)
Lemma dispatches_on_render fuel depth s self ds :
  trace (render fuel (S depth) s self) =
    (pair self <$> ds) ++ trace (render_children fuel depth s self) →
  ¬ descendant s self self →
  dispatches_on self (trace (render fuel (S depth) s self)) = ds.
Proof.
  intros Ht Hacyc. rewrite Ht. unfold dispatches_on.
  rewrite filter_app, fmap_app.
  fold (dispatches_on self (pair self <$> ds)).
  fold (dispatches_on self (trace (render_children fuel depth s self))).
  rewrite dispatches_on_own.
  rewrite (dispatches_on_others self (descendant s self)); [|
    apply targets_render_children|done].
  apply app_nil_r.
Qed.

End Descendants.

(** ** Rendering inside a frame *)

Section FlowableRendering.
Import Scene Rendering Frame.

(** In the example scenes the node is object 2 and its frame object 1. *)
Local Ltac in_example_frame := exists 1%nat; repeat split; reflexivity.
Local Ltac example_well_formed :=
  unfold well_formed; simpl; vm_compute; intuition discriminate.




(** The line a span ends on agrees with the frame's own line lookup: when
    the span does not end exactly at a line's end, its end point lies on
    line [i0 + k - 1]. *)
Lemma span_covers_end_line cs xx w k i0 cl :
  well_formed cs → span_covers cs xx w (S (S k)) = true →
  _last_break_index_at cs xx = Ok i0 → cs !! (i0 + S k)%nat = Some cl →
  xx + w < line_end cl →
  _last_break_index_at cs (xx + w) = Ok (i0 + S k)%nat.
Proof.
  intros Hwf Hspan Hi Hcl Hlt. unfold span_covers in Hspan.
  rewrite Hi, Hcl in Hspan. apply andb_prop in Hspan as [H1 _].
  apply bool_decide_eq_true in H1.
  apply last_break_index_at_intro with cl; [done..|lia].
Qed.








(** C4, as the code has it.  A node of breakable width 0 inside a
    well-formed frame, at any local x of the flowed range before its end
    ([0 <= x < total length], the end of every line but the last included):
    [render] issues on the node exactly one full-render call, at the node's
    document position, and no partial call. *)
Theorem render_zero_width fuel depth s self o cs p :
  placed fuel s self o cs p → well_formed cs →
  overrides (cls o) OpComplete = true →
  breakable_width o = 0 →
  0 <= px p < total_length cs →
  ∃ pos,
    doc_pos_of fuel s self = Ok pos ∧
    trace (render fuel (S depth) s self) =
      (self, RenderComplete pos)
        :: trace (render_children fuel depth s self) ∧
    (¬ descendant s self self →
     dispatches_on self (trace (render fuel (S depth) s self))
       = [RenderComplete pos]).
Proof.
  intros Hpl Hwf Hov Hw Hx.
  destruct (last_break_index_at_total cs (px p) Hwf Hx)
    as (i0 & c0 & Hi & Hc0 & Hin).
  exists (add (Controller.pos c0) (Point2 (px p - Controller.x c0) (py p))).
  split; [by eapply doc_pos_of_placed|].
  assert (Hfit : px p + breakable_width o < line_end c0) by lia.
  pose proof (render_flowable_fast _ _ _ _ _ _ _ _ Hpl Hi Hc0 Hfit Hov) as Hr.
  destruct (render_placed_trace _ depth _ _ _ _ _
              [RenderComplete _] Hpl Hr) as [Ht _].
  split; [done|by apply dispatches_on_render].
Qed.

Lemma render_zero_width_witness :
  let s := Examples.scene Examples.two_lines (Point2 100 7) 0 in
  ∃ pos,
    doc_pos_of 3 s 2 = Ok pos ∧
    trace (render 3 1 s 2) =
      (2%nat, RenderComplete pos) :: trace (render_children 3 0 s 2) ∧
    (¬ descendant s 2 2 →
     dispatches_on 2 (trace (render 3 1 s 2)) = [RenderComplete pos]).
Proof.
  apply (render_zero_width 3 0
           (Examples.scene Examples.two_lines (Point2 100 7) 0) 2
           (Examples.node (Point2 100 7) 0) Examples.two_lines
           (Point2 100 7)).
  - in_example_frame.
  - example_well_formed.
  - reflexivity.
  - reflexivity.
  - vm_compute. intuition discriminate.
Defined.

(** C4 fails at the end of the last line: a node of breakable width 0 at
    local x = 180, the end of line 2 and of the flowed range, is in range
    (180 does not exceed the total length), yet [render] issues a
    render-before-break and a render-after-break call, both of width 0, and
    no full render. *)
Lemma render_zero_width_counterexample :
  let s := Examples.scene Examples.two_lines (Point2 180 0) 0 in
  let o := Examples.node (Point2 180 0) 0 in
  let cs := Examples.two_lines in
  (placed 3 s 2 o cs (Point2 180 0) ∧ well_formed cs ∧
   breakable_width o = 0 ∧
   _last_break_index_at cs 180 = Ok 1%nat ∧
   180 = line_end Examples.line2) ∧
  trace (render 3 1 s 2) =
    [(2%nat, RenderBeforeBreak 0 (mkPoint 80 50 0) (mkPoint 80 50 0));
     (2%nat, RenderAfterBreak 0 (mkPoint 0 50 0) (mkPoint 0 50 0))] ∧
  ¬ ∃ pos, trace (render 3 1 s 2) = [(2%nat, RenderComplete pos)].
Proof.
  split; [|split].
  - split; [in_example_frame|]. split; [example_well_formed|].
    repeat split; reflexivity.
  - by vm_compute.
  - intros [pos H]. vm_compute in H. discriminate.
Qed.

End FlowableRendering.

(** ** Default rendering operations *)

Section Defaults.
Import Scene Rendering.

(** C9.  For a node type that overrides none of the three partial-rendering
    operations, a call of render-before-break, render-after-break or
    render-spanning-continuation on an instance runs the base implementation
    and raises NotImplementedError. *)
Theorem partial_rendering_defaults_raise c self l a b :
  overrides c OpBeforeBreak = false →
  overrides c OpAfterBreak = false →
  overrides c OpSpanningContinuation = false →
  (outcome (invoke c self (RenderBeforeBreak l a b))
     = Raise NotImplementedError ∧
   outcome (invoke c self (RenderAfterBreak l a b))
     = Raise NotImplementedError ∧
   outcome (invoke c self (RenderSpanningContinuation l a b))
     = Raise NotImplementedError) ∧
  (outcome (_render_before_break self l a b) = Raise NotImplementedError ∧
   outcome (_render_after_break self l a b) = Raise NotImplementedError ∧
   outcome (_render_spanning_continuation self l a b)
     = Raise NotImplementedError).
Proof.
  intros Hb Ha Hs. split; [|done].
  rewrite !invoke_default by done. done.
Qed.

Lemma partial_rendering_defaults_raise_witness :
  let c := Examples.complete_only in
  (outcome (invoke c 2 (RenderBeforeBreak 0 origin origin))
     = Raise NotImplementedError ∧
   outcome (invoke c 2 (RenderAfterBreak 0 origin origin))
     = Raise NotImplementedError ∧
   outcome (invoke c 2 (RenderSpanningContinuation 0 origin origin))
     = Raise NotImplementedError) ∧
  (outcome (_render_before_break 2 0 origin origin)
     = Raise NotImplementedError ∧
   outcome (_render_after_break 2 0 origin origin)
     = Raise NotImplementedError ∧
   outcome (_render_spanning_continuation 2 0 origin origin)
     = Raise NotImplementedError).
Proof.
  apply (partial_rendering_defaults_raise Examples.complete_only 2%nat 0
           origin origin); reflexivity.
Defined.

End Defaults.

(** ** Anchored points and lines *)

Section Values.
Import Anchored.

(** C8.  Adding or subtracting two AnchoredPoints whose parents differ
    raises AttributeError at the call; with the same parent the call
    returns the componentwise sum or difference, anchored to that parent. *)
Theorem anchored_point_arithmetic (a b : AnchoredPoint) :
  (parent a ≠ parent b →
   __add__ a (OAnchoredPoint b) = Raise AttributeError ∧
   __sub__ a (OAnchoredPoint b) = Raise AttributeError) ∧
  (parent a = parent b →
   __add__ a (OAnchoredPoint b)
     = Ok (mkAnchoredPoint (x a + x b) (y a + y b) (parent a)) ∧
   __sub__ a (OAnchoredPoint b)
     = Ok (mkAnchoredPoint (x a - x b) (y a - y b) (parent a))).
Proof.
  unfold __add__, __sub__. split; intros H; by case_decide.
Qed.

Lemma anchored_point_arithmetic_witness :
  (__add__ (mkAnchoredPoint 1 2 (Some 7%nat))
     (OAnchoredPoint (mkAnchoredPoint 10 20 (Some 8%nat)))
     = Raise AttributeError ∧
   __sub__ (mkAnchoredPoint 1 2 (Some 7%nat))
     (OAnchoredPoint (mkAnchoredPoint 10 20 (Some 8%nat)))
     = Raise AttributeError) ∧
  (__add__ (mkAnchoredPoint 1 2 (Some 7%nat))
     (OAnchoredPoint (mkAnchoredPoint 10 20 (Some 7%nat)))
     = Ok (mkAnchoredPoint 11 22 (Some 7%nat)) ∧
   __sub__ (mkAnchoredPoint 1 2 (Some 7%nat))
     (OAnchoredPoint (mkAnchoredPoint 10 20 (Some 7%nat)))
     = Ok (mkAnchoredPoint (-9) (-18) (Some 7%nat))).
Proof.
  split.
  - apply (proj1 (anchored_point_arithmetic
                    (mkAnchoredPoint 1 2 (Some 7%nat))
                    (mkAnchoredPoint 10 20 (Some 8%nat)))).
    simpl. discriminate.
  - apply (proj2 (anchored_point_arithmetic
                    (mkAnchoredPoint 1 2 (Some 7%nat))
                    (mkAnchoredPoint 10 20 (Some 7%nat)))).
    reflexivity.
Defined.

(** C10, as the code has it.  The length of a NewLine is the live width of
    its page minus the x of its position, and [doc_end_pos] is the position
    plus (length, height).  On integer-valued Units the x of [doc_end_pos]
    is therefore the live width of the page: the line extends exactly to
    the live-width boundary. *)
Theorem new_line_ends_at_live_width (l : Line.NewLine) :
  Line.length l
    = Line.live_width (Line.paper (Line.page l)) - px (Line.pos l) ∧
  Line.doc_end_pos l
    = add (Line.pos l) (Point2 (Line.length l) (Line.height l)) ∧
  px (Line.doc_end_pos l) = Line.live_width (Line.paper (Line.page l)).
Proof.
  repeat split. unfold Line.doc_end_pos, Line.length. simpl. lia.
Qed.

End Values.

(** ** The scene graph *)

Section SceneGraph.
Import Scene.

(** C5, as the code has it.  The setter of [parent] has no cycle check.
    For a node registered with its old parent, assigning any object of the
    scene as the new parent succeeds, the node itself and its own
    descendants included: the node is removed from the children of the old
    parent, its parent field is set, and it is added to the children of the
    new parent; nothing else changes. *)
Theorem set_parent_never_rejects document s self o old oo v :
  s !! self = Some o → parent o = Some old →
  s !! old = Some oo → self ∈ children oo →
  is_Some (s !! v) →
  ∃ s', set_parent document s self (Some v) = Ok s' ∧
    ∀ q oq, s !! q = Some oq →
      ∃ oq', s' !! q = Some oq' ∧
        parent oq' = (if decide (q = self) then Some v else parent oq) ∧
        children oq' =
          (let kept := if decide (q = old) then children oq ∖ {[self]}
                       else children oq in
           if decide (q = v) then kept ∪ {[self]} else kept) ∧
        type oq' = type oq ∧ cls oq' = cls oq ∧ pos oq' = pos oq ∧
        breakable_width oq' = breakable_width oq.
Proof.
  intros Hs Hp Ho Hin [ov Hv].
  unfold set_parent, _unregister_child, _register_child, get.
  rewrite Hs. simpl. rewrite Hp, Ho. simpl.
  rewrite decide_True by done. simpl.
  set (s1 := <[old := with_children oo (children oo ∖ {[self]})]> s).
  assert (H1 : ∃ o1, s1 !! self = Some o1 ∧ type o1 = type o ∧
                 cls o1 = cls o ∧ pos o1 = pos o ∧
                 breakable_width o1 = breakable_width o ∧
                 children o1 = (if decide (self = old)
                                then children o ∖ {[self]} else children o)).
  { unfold s1. destruct (decide (self = old)) as [->|Hne].
    - rewrite lookup_insert_eq. eexists. split; [done|].
      rewrite Hs in Ho. by inversion Ho.
    - rewrite lookup_insert_ne by done. by exists o. }
  destruct H1 as (o1 & Ho1 & Ht1 & Hc1 & Hpos1 & Hw1 & Hch1).
  rewrite Ho1. simpl.
  set (s2 := <[self := with_parent o1 (Some v)]> s1).
  assert (H2 : ∀ q oq, s !! q = Some oq →
            ∃ oq2, s2 !! q = Some oq2 ∧
              parent oq2 = (if decide (q = self) then Some v else parent oq) ∧
              children oq2 = (if decide (q = old) then children oq ∖ {[self]}
                              else children oq) ∧
              type oq2 = type oq ∧ cls oq2 = cls oq ∧ pos oq2 = pos oq ∧
              breakable_width oq2 = breakable_width oq).
  { intros q oq Hq. unfold s2. destruct (decide (q = self)) as [->|Hqs].
    - rewrite lookup_insert_eq. eexists. split; [done|].
      rewrite Hs in Hq. inversion Hq; subst oq. simpl.
      by repeat split.
    - rewrite lookup_insert_ne by done. unfold s1.
      destruct (decide (q = old)) as [->|Hqo].
      + rewrite lookup_insert_eq. eexists. split; [done|].
        rewrite Ho in Hq. by inversion Hq.
      + rewrite lookup_insert_ne by done. by exists oq. }
  destruct (H2 v ov Hv) as (ov2 & Hv2 & Hpv & Hcv & Htv & Hclv & Hposv & Hwv).
  rewrite Hv2. simpl. eexists. split; [done|].
  intros q oq Hq. destruct (decide (q = v)) as [->|Hqv].
  - rewrite lookup_insert_eq. eexists. split; [done|].
    rewrite Hv in Hq. inversion Hq; subst oq. simpl.
    repeat split; try done. by rewrite Hcv.
  - rewrite lookup_insert_ne by done. by apply H2.
Qed.

Lemma set_parent_never_rejects_witness :
  ∃ s', set_parent 0 Examples.chain 1 (Some 3%nat) = Ok s' ∧
    ∀ q oq, Examples.chain !! q = Some oq →
      ∃ oq', s' !! q = Some oq' ∧
        parent oq' = (if decide (q = 1%nat) then Some 3%nat else parent oq) ∧
        children oq' =
          (let kept := if decide (q = 0%nat) then children oq ∖ {[1%nat]}
                       else children oq in
           if decide (q = 3%nat) then kept ∪ {[1%nat]} else kept) ∧
        type oq' = type oq ∧ cls oq' = cls oq ∧ pos oq' = pos oq ∧
        breakable_width oq' = breakable_width oq.
Proof.
  apply (set_parent_never_rejects 0 Examples.chain 1
           (Examples.link 1 {[2%nat]}) 0
           (mkObject Document Examples.no_ops origin 0 None {[1%nat]}) 3).
  - reflexivity.
  - reflexivity.
  - reflexivity.
  - by vm_compute.
  - exists (Examples.link 3 {[4%nat]}). reflexivity.
Defined.

(** C5 fails: in the chain, object 3 is a descendant of object 1, yet
    making 3 the parent of 1 raises nothing and changes the children of the
    old parent (the document) and of the new parent, and the parent field;
    making object 1 its own parent succeeds as well. *)
Lemma set_parent_cycle_counterexample :
  descendant Examples.chain 1 3 ∧
  (∃ s', set_parent 0 Examples.chain 1 (Some 3%nat) = Ok s' ∧
     children <$> Examples.chain !! 0%nat = Some {[1%nat]} ∧
     children <$> s' !! 0%nat = Some ∅ ∧
     children <$> Examples.chain !! 3%nat = Some {[4%nat]} ∧
     children <$> s' !! 3%nat = Some {[1%nat; 4%nat]} ∧
     parent <$> Examples.chain !! 1%nat = Some (Some 0%nat) ∧
     parent <$> s' !! 1%nat = Some (Some 3%nat)) ∧
  (∃ s', set_parent 0 Examples.chain 1 (Some 1%nat) = Ok s' ∧
     children <$> s' !! 0%nat = Some ∅ ∧
     children <$> s' !! 1%nat = Some {[1%nat; 2%nat]} ∧
     parent <$> s' !! 1%nat = Some (Some 1%nat)).
Proof.
  split; [|split].
  - apply descendant_step with (Examples.link 2 {[3%nat]}) 2%nat;
      [|reflexivity|by vm_compute].
    apply descendant_child with (Examples.link 1 {[2%nat]});
      [reflexivity|by vm_compute].
  - eexists. split; [by vm_compute|]. repeat split; by vm_compute.
  - eexists. split; [by vm_compute|]. repeat split; by vm_compute.
Qed.

(** Positions of objects outside every frame resolve, given enough fuel. *)
Lemma frame_loop_reaches_document k : ∀ fuel s n,
  reaches_document k s n = true → (k < fuel)%nat →
  frame_loop fuel s (Some n) = Ok None.
Proof.
  induction k as [|k IH]; intros [|fuel] s n Hr Hlt; try lia; simpl in *;
    destruct (s !! n) as [o|]; try done;
    destruct (type o); try done.
  destruct (parent o) as [p|]; [|done]. apply IH; [done|lia].
Qed.

Lemma frame_reaches_document k fuel s n :
  reaches_document k s n = true → (k < fuel)%nat → frame fuel s n = Ok None.
Proof.
  intros Hr Hlt. unfold frame. destruct k as [|k]; simpl in Hr;
    destruct (s !! n) as [o|]; try done;
    destruct (type o); try done.
  destruct (parent o) as [p|]; [|done].
  apply frame_loop_reaches_document with k; [done|lia].
Qed.

Lemma chain_pos_reaches_document k : ∀ fuel s n,
  reaches_document k s n = true → (k < fuel)%nat →
  ∃ p, chain_pos fuel s n = Ok p.
Proof.
  induction k as [|k IH]; intros [|fuel] s n Hr Hlt; try lia; simpl in *;
    unfold get; destruct (s !! n) as [o|]; try done; simpl;
    destruct (type o); try done; eauto.
  destruct (parent o) as [p|]; [|done].
  destruct (IH fuel s p Hr ltac:(lia)) as [q Hq]. rewrite Hq. simpl. eauto.
Qed.

Lemma doc_pos_of_reaches_document k fuel s n :
  reaches_document k s n = true → (k < fuel)%nat →
  ∃ p, doc_pos_of fuel s n = Ok p.
Proof.
  intros Hr Hlt. unfold doc_pos_of.
  rewrite (frame_reaches_document _ _ _ _ Hr Hlt). simpl.
  by apply chain_pos_reaches_document with k.
Qed.

Lemma neg_sub p q : neg (sub p q) = sub q p.
Proof. unfold neg, sub. simpl. f_equal; lia. Qed.

(** C7.  [map_between_items] is antisymmetric: whenever it returns [p] from
    [a] to [b], it returns the negation of [p] from [b] to [a]; and for two
    objects whose owning chains reach the document root it does return. *)
Theorem map_between_items_antisymmetric fuel s a b :
  (∀ p, map_between_items fuel s a b = Ok p →
        map_between_items fuel s b a = Ok (neg p)) ∧
  (∀ k, reaches_document k s a = true → reaches_document k s b = true →
        (k < fuel)%nat →
        ∃ p, map_between_items fuel s a b = Ok p ∧
             map_between_items fuel s b a = Ok (neg p)).
Proof.
  assert (Hanti : ∀ p, map_between_items fuel s a b = Ok p →
                       map_between_items fuel s b a = Ok (neg p)).
  { intros p. unfold map_between_items.
    destruct (doc_pos_of fuel s b) as [pb| |]; try done; simpl;
      destruct (doc_pos_of fuel s a) as [pa| |]; try done; simpl.
    intros [= <-]. by rewrite neg_sub. }
  split; [done|]. intros k Ha Hb Hlt.
  destruct (doc_pos_of_reaches_document _ _ _ _ Ha Hlt) as [pa Hpa].
  destruct (doc_pos_of_reaches_document _ _ _ _ Hb Hlt) as [pb Hpb].
  exists (sub pb pa). split; [|apply Hanti];
    unfold map_between_items; by rewrite Hpb, Hpa.
Qed.

Lemma map_between_items_antisymmetric_witness :
  map_between_items 3 Examples.items 2 3 = Ok (mkPoint (-104) (-107) (-4)) ∧
  map_between_items 3 Examples.items 3 2 = Ok (mkPoint 104 107 4) ∧
  ∃ p, map_between_items 3 Examples.items 2 3 = Ok p ∧
       map_between_items 3 Examples.items 3 2 = Ok (neg p).
Proof.
  split; [reflexivity|]. split.
  - apply (proj1 (map_between_items_antisymmetric 3 Examples.items 2 3)
             (mkPoint (-104) (-107) (-4))).
    reflexivity.
  - apply (proj2 (map_between_items_antisymmetric 3 Examples.items 2 3)
             2%nat); reflexivity || lia.
Defined.

(** C6 at a chain of four objects: [all_descendants] of object 1 yields the
    grandchild 3 and then the child 2, and never the great-grandchild 4,
    which is a transitive child of 1. *)
Theorem all_descendants_misses_great_grandchild :
  all_descendants Examples.chain 1 = Ok [3%nat; 2%nat] ∧
  descendant Examples.chain 1 4 ∧
  4%nat ∉ [3%nat; 2%nat].
Proof.
  split; [by vm_compute|]. split.
  - apply descendant_step with (Examples.link 3 {[4%nat]}) 3%nat;
      [|reflexivity|by vm_compute].
    apply descendant_step with (Examples.link 2 {[3%nat]}) 2%nat;
      [|reflexivity|by vm_compute].
    apply descendant_child with (Examples.link 1 {[2%nat]});
      [reflexivity|by vm_compute].
  - intros H. repeat (apply elem_of_cons in H as [H|H]; [discriminate|]).
    by apply elem_of_nil in H.
Qed.

(** What [all_descendants] yields, in general: the children of the object
    and the children of those children, nothing deeper. *)
Lemma all_descendants_loop_elem s cs l d :
  all_descendants_loop s cs = Ok l →
  d ∈ l ↔
  d ∈ cs ∨ ∃ c oc, c ∈ cs ∧ s !! c = Some oc ∧ d ∈ children oc.
Proof.
  revert l. induction cs as [|c cs IH]; intros l; simpl.
  - intros [= <-]. split.
    + intros H. by apply elem_of_nil in H.
    + intros [H|(c & oc & H & _)]; by apply elem_of_nil in H.
  - unfold children_of, get. destruct (s !! c) as [oc|] eqn:Hc; [|done].
    simpl. destruct (all_descendants_loop s cs) as [more| |]; try done.
    simpl. intros [= <-]. specialize (IH more eq_refl).
    rewrite elem_of_app, elem_of_cons, IH, elem_of_elements. split.
    + intros [H|[->|[H|(c' & oc' & H1 & H2 & H3)]]].
      * right. exists c, oc. repeat split; try done. apply elem_of_cons; eauto.
      * left. apply elem_of_cons; eauto.
      * left. apply elem_of_cons; eauto.
      * right. exists c', oc'. repeat split; try done.
        apply elem_of_cons; eauto.
    + intros [H|(c' & oc' & H1 & H2 & H3)].
      * apply elem_of_cons in H as [->|H]; eauto.
      * apply elem_of_cons in H1 as [->|H1].
        -- left. congruence.
        -- right. right. right. eauto.
Qed.

End SceneGraph.

(** ** The parent/children index *)

#[local] Set Warnings "-clear-no-such-hyp".

Section SceneIndex.
Import Scene.

Lemma with_children_eta o : with_children o (children o) = o.
Proof. by destruct o. Qed.

(** The store after a successful assignment of a parent. *)
Lemma set_parent_spec document s self o value :
  s !! self = Some o → is_Some (s !! default document value) →
  (∀ old, parent o = Some old →
          ∃ oo, s !! old = Some oo ∧ self ∈ children oo) →
  ∃ s', set_parent document s self value = Ok s' ∧
    ∀ q, s' !! q
         = reparented self (parent o) (default document value) q <$> s !! q.
Proof.
  intros Hs [ov Hv] Hold.
  unfold set_parent, _unregister_child, _register_child, get.
  rewrite Hs. cbn [mbind result_bind].
  set (v := default document value) in *. clearbody v.
  assert (H1 : ∃ s1,
    match parent o with
    | Some old =>
        match s !! old with
        | Some o0 => Ok o0
        | None => Raise AttributeError
        end ≫= λ o0,
          if decide (self ∈ children o0)
          then Ok (<[old:=with_children o0 (children o0 ∖ {[self]})]> s)
          else Raise KeyError
    | None => Ok s
    end = Ok s1 ∧
    ∀ q, s1 !! q =
      (λ oq, with_children oq
               (if decide (Some q = parent o) then children oq ∖ {[self]}
                else children oq)) <$> s !! q).
  { destruct (parent o) as [old|] eqn:Hp.
    - destruct (Hold old eq_refl) as (oo & Hoo & Hin). rewrite Hoo.
      cbn [mbind result_bind]. rewrite decide_True by done.
      eexists. split; [done|]. intros q.
      destruct (decide (q = old)) as [->|Hne].
      + rewrite lookup_insert_eq, Hoo. simpl. by rewrite decide_True.
      + rewrite lookup_insert_ne by done.
        destruct (s !! q) as [oq|]; [|done]. simpl.
        rewrite decide_False by congruence. by rewrite with_children_eta.
    - exists s. split; [done|]. intros q.
      destruct (s !! q) as [oq|]; [|done]. simpl.
      by rewrite with_children_eta. }
  destruct H1 as (s1 & -> & Hs1). cbn [mbind result_bind].
  rewrite (Hs1 self), Hs. cbn [fmap option_fmap option_map mbind result_bind].
  set (o1 := with_children o _).
  assert (Ho1 : o1 = with_children o
                       (if decide (Some self = parent o)
                        then children o ∖ {[self]} else children o))
    by done.
  clearbody o1. rewrite lookup_insert.
  destruct (decide (self = v)) as [Hvs|Hvs].
  - cbn [mbind result_bind]. eexists. split; [done|]. intros q.
    destruct (decide (q = v)) as [->|Hqv].
    + rewrite lookup_insert_eq. rewrite <- Hvs, Hs. simpl.
      unfold reparented. rewrite !decide_True by done.
      by rewrite Ho1.
    + rewrite lookup_insert_ne by done.
      rewrite lookup_insert_ne by congruence. rewrite Hs1.
      destruct (s !! q) as [oq|]; [|done]. simpl. unfold reparented.
      rewrite (decide_False (P := q = self)) by congruence.
      rewrite (decide_False (P := q = v)) by done. done.
  - rewrite (Hs1 v), Hv. cbn [fmap option_fmap option_map mbind result_bind].
    eexists. split; [done|]. intros q.
    destruct (decide (q = v)) as [->|Hqv].
    + rewrite lookup_insert_eq, Hv. simpl. unfold reparented.
      rewrite (decide_False (P := v = self)) by congruence.
      rewrite (decide_True (P := v = v)) by done. done.
    + rewrite lookup_insert_ne by done.
      destruct (decide (q = self)) as [->|Hqs].
      * rewrite lookup_insert_eq, Hs. simpl. unfold reparented.
        rewrite (decide_True (P := self = self)) by done.
        rewrite (decide_False (P := self = v)) by done. by rewrite Ho1.
      * rewrite lookup_insert_ne by done. rewrite Hs1.
        destruct (s !! q) as [oq|]; [|done]. simpl. unfold reparented.
        rewrite (decide_False (P := q = self)) by done.
        rewrite (decide_False (P := q = v)) by done. done.
Qed.

(** X1.  Registering a child that the parent does not list yet and then
    unregistering it gives back the store; in between the child is listed,
    and registering it a second time changes nothing. *)
Theorem register_unregister_roundtrip s p op c :
  s !! p = Some op → c ∉ children op →
  ∃ s1, _register_child s p c = Ok s1 ∧
    (∃ o1, s1 !! p = Some o1 ∧ c ∈ children o1) ∧
    _register_child s1 p c = Ok s1 ∧
    _unregister_child s1 p c = Ok s.
Proof.
  intros Hp Hc. unfold _register_child, _unregister_child, get.
  rewrite Hp. cbn [mbind result_bind]. eexists. split; [done|].
  rewrite !lookup_insert_eq. cbn [mbind result_bind]. split; [|split].
  - eexists. split; [done|]. simpl. set_solver.
  - f_equal. rewrite insert_insert_eq. f_equal. destruct op; simpl.
    unfold with_children; simpl. f_equal. set_solver.
  - rewrite decide_True by (simpl; set_solver). f_equal.
    rewrite insert_insert_eq. apply insert_id. rewrite Hp. f_equal.
    destruct op; unfold with_children; simpl in *. f_equal. set_solver.
Qed.

Lemma register_unregister_roundtrip_witness :
  ∃ s1, _register_child Examples.chain 1 7 = Ok s1 ∧
    (∃ o1, s1 !! 1%nat = Some o1 ∧ 7%nat ∈ children o1) ∧
    _register_child s1 1 7 = Ok s1 ∧
    _unregister_child s1 1 7 = Ok Examples.chain.
Proof.
  apply (register_unregister_roundtrip Examples.chain 1
           (Examples.link 1 {[2%nat]}) 7).
  - reflexivity.
  - by vm_compute.
Defined.

(** X2.  Unregistering a child that the parent does not list raises
    KeyError, and so does the parent setter when the old parent of the node
    does not list it. *)
Theorem unregister_missing_child_raises document s self o old oo value :
  s !! self = Some o → parent o = Some old →
  s !! old = Some oo → self ∉ children oo →
  _unregister_child s old self = Raise KeyError ∧
  set_parent document s self value = Raise KeyError.
Proof.
  intros Hs Hp Ho Hin. unfold set_parent, _unregister_child, get.
  rewrite Hs, Ho. cbn [mbind result_bind]. rewrite Hp, Ho.
  cbn [mbind result_bind]. by rewrite decide_False.
Qed.

Lemma unregister_missing_child_raises_witness :
  let s := <[0%nat := mkObject Document Examples.no_ops origin 0 None ∅]>
             Examples.chain in
  _unregister_child s 0 1 = Raise KeyError ∧
  set_parent 0 s 1 (Some 3%nat) = Raise KeyError.
Proof.
  apply (unregister_missing_child_raises 0
           (<[0%nat := mkObject Document Examples.no_ops origin 0 None ∅]>
              Examples.chain)
           1 (Examples.link 1 {[2%nat]}) 0
           (mkObject Document Examples.no_ops origin 0 None ∅) (Some 3%nat)).
  - reflexivity.
  - reflexivity.
  - reflexivity.
  - by vm_compute.
Defined.

Lemma consistent_registered s n o p :
  consistent s → s !! n = Some o → parent o = Some p →
  ∃ op, s !! p = Some op ∧ n ∈ children op.
Proof.
  intros [Hr _] Hn Hp. specialize (Hr n o Hn). unfold registered in Hr.
  rewrite Hp in Hr. destruct (s !! p) as [op|]; [eauto|done].
Qed.

Lemma consistent_owns s p op c :
  consistent s → s !! p = Some op → c ∈ children op →
  ∃ oc, s !! c = Some oc ∧ parent oc = Some p.
Proof.
  intros [_ Ho] Hp Hc. specialize (Ho p op Hp c Hc). simpl in Ho.
  destruct (s !! c) as [oc|]; [eauto|done].
Qed.

Lemma set_parent_keeps_consistent document s self o value :
  consistent s → s !! self = Some o →
  is_Some (s !! default document value) →
  ∃ s', set_parent document s self value = Ok s' ∧ consistent s' ∧
    ∀ q, s' !! q
         = reparented self (parent o) (default document value) q <$> s !! q.
Proof.
  intros Hcons Hs Hv.
  destruct (set_parent_spec document s self o value Hs Hv) as (s' & Hset & Hs').
  { intros old Hold. by eapply consistent_registered. }
  exists s'. split; [done|]. split; [|done].
  set (v := default document value) in *. clearbody v.
  destruct Hv as [ov Hv]. split.
  - intros q oq' Hq. rewrite Hs' in Hq.
    destruct (s !! q) as [oq|] eqn:Hsq; [|done]. simpl in Hq.
    injection Hq as <-. unfold registered, reparented. simpl.
    destruct (decide (q = self)) as [->|Hqs].
    + rewrite Hs', Hv. simpl. rewrite decide_True by done. set_solver.
    + destruct (parent oq) as [p|] eqn:Hp; [|done].
      destruct (consistent_registered _ _ _ _ Hcons Hsq Hp) as (op & Hop & Hin).
      rewrite Hs', Hop. simpl. repeat case_decide; set_solver.
  - intros q oq' Hq c Hc. simpl. rewrite Hs' in Hq.
    destruct (s !! q) as [oq|] eqn:Hsq; [|done]. simpl in Hq.
    injection Hq as <-. unfold reparented in Hc. simpl in Hc.
    destruct (decide (c = self)) as [->|Hcs].
    + rewrite Hs', Hs. simpl. rewrite decide_True by done.
      destruct (decide (q = v)) as [->|Hqv]; [done|].
      assert (Hin : self ∈ children oq ∧ Some q ≠ parent o)
        by (case_decide; set_solver).
      destruct Hin as [Hin Hne].
      destruct (consistent_owns _ _ _ _ Hcons Hsq Hin) as (oc & Hoc & Hpc).
      rewrite Hs in Hoc. injection Hoc as <-. congruence.
    + assert (Hin : c ∈ children oq) by (repeat case_decide; set_solver).
      destruct (consistent_owns _ _ _ _ Hcons Hsq Hin) as (oc & Hoc & Hpc).
      rewrite Hs', Hoc. simpl. by rewrite decide_False.
Qed.

(** X3.  The parent setter and the constructor keep the children sets
    consistent with the parent fields.  In a consistent scene, assigning an
    object of the scene as parent never fails (a missing value means the
    document), and constructing a new object under a parent of the scene
    never fails; after either, every object is listed by its parent and
    every listed child has that parent. *)
Theorem parent_index_kept document s :
  consistent s →
  (∀ self o value,
     s !! self = Some o → is_Some (s !! default document value) →
     ∃ s', set_parent document s self value = Ok s' ∧ consistent s') ∧
  (∀ self c p w value,
     s !! self = None → is_Some (s !! default document value) →
     ∃ s', __init__ document s self c p w value = Ok s' ∧ consistent s').
Proof.
  intros Hcons. split.
  - intros self o value Hs Hv.
    destruct (set_parent_keeps_consistent document s self o value Hcons Hs Hv)
      as (s' & Hset & Hc' & _).
    eauto.
  - intros self c p w value Hfresh [ov Hv]. unfold __init__.
    set (o := mkObject Graphic c p (default 0 w) None ∅).
    assert (Hne : default document value ≠ self) by congruence.
    destruct (set_parent_keeps_consistent document (<[self:=o]> s) self o value)
      as (s' & Hset & Hc' & _); [| |by rewrite lookup_insert_ne; eauto|by eauto].
    + destruct Hcons as [Hr Ho]. split.
      * intros q oq Hq. destruct (decide (q = self)) as [->|Hqs].
        -- rewrite lookup_insert_eq in Hq. by injection Hq as <-.
        -- rewrite lookup_insert_ne in Hq by done.
           specialize (Hr q oq Hq). unfold registered in *.
           destruct (parent oq) as [pq|]; [|done].
           destruct (decide (pq = self)) as [->|Hps].
           ++ by rewrite Hfresh in Hr.
           ++ by rewrite lookup_insert_ne.
      * intros q oq Hq. destruct (decide (q = self)) as [->|Hqs].
        -- rewrite lookup_insert_eq in Hq. injection Hq as <-.
           intros x Hx. simpl in Hx. set_solver.
        -- rewrite lookup_insert_ne in Hq by done.
           intros x Hx. specialize (Ho q oq Hq x Hx). simpl in *.
           destruct (decide (x = self)) as [->|Hxs].
           ++ by rewrite Hfresh in Ho.
           ++ by rewrite lookup_insert_ne.
    + apply lookup_insert_eq.
Qed.

Lemma parent_index_kept_witness :
  (∃ s', set_parent 0 Examples.chain 2 (Some 0%nat) = Ok s' ∧ consistent s') ∧
  (∃ s', __init__ 0 Examples.chain 9 Examples.all_ops (Point2 5 6) (Some 7)
           None = Ok s' ∧ consistent s').
Proof.
  assert (Hc : consistent Examples.chain)
    by (apply (bool_decide_unpack _); by vm_compute).
  split.
  - apply (proj1 (parent_index_kept 0 Examples.chain Hc) 2%nat
             (Examples.link 2 {[3%nat]}) (Some 0%nat)).
    + reflexivity.
    + by eexists.
  - apply (proj2 (parent_index_kept 0 Examples.chain Hc) 9%nat
             Examples.all_ops (Point2 5 6) (Some 7) None).
    + reflexivity.
    + by eexists.
Defined.

(** X4.  Re-parenting is undone by re-parenting back: in a consistent
    scene, giving a node a new parent and then its old parent again restores
    the whole scene. *)
Theorem set_parent_roundtrip document s self o old v :
  consistent s → s !! self = Some o → parent o = Some old →
  is_Some (s !! v) →
  set_parent document s self (Some v)
    ≫= (λ s1, set_parent document s1 self (Some old)) = Ok s.
Proof.
  intros Hcons Hs Hp Hv.
  destruct (consistent_registered _ _ _ _ Hcons Hs Hp) as (oo & Hoo & Hin).
  destruct (set_parent_keeps_consistent document s self o (Some v) Hcons Hs Hv)
    as (s1 & Hset1 & Hc1 & Hs1).
  rewrite Hset1. cbn [mbind result_bind]. simpl in Hs1.
  assert (Hself1 : s1 !! self = Some (reparented self (parent o) v self o))
    by (by rewrite Hs1, Hs).
  destruct (set_parent_keeps_consistent document s1 self _ (Some old) Hc1
              Hself1) as (s2 & Hset2 & _ & Hs2).
  { simpl. rewrite Hs1, Hoo. by eexists. }
  rewrite Hset2. f_equal. apply map_eq. intros q. rewrite Hs2, Hs1.
  simpl. destruct (s !! q) as [oq|] eqn:Hq; [|done]. simpl. f_equal.
  unfold reparented. simpl. rewrite (decide_True (P := self = self)) by done.
  rewrite Hp.
  assert (Hch : (if decide (q = old)
     then (if decide (Some q = Some v)
           then (if decide (q = v)
                 then (if decide (Some q = Some old)
                       then children oq ∖ {[self]} else children oq)
                      ∪ {[self]}
                 else if decide (Some q = Some old)
                      then children oq ∖ {[self]} else children oq)
                ∖ {[self]}
           else if decide (q = v)
                then (if decide (Some q = Some old)
                      then children oq ∖ {[self]} else children oq)
                     ∪ {[self]}
                else if decide (Some q = Some old)
                     then children oq ∖ {[self]} else children oq)
          ∪ {[self]}
     else if decide (Some q = Some v)
          then (if decide (q = v)
                then (if decide (Some q = Some old)
                      then children oq ∖ {[self]} else children oq)
                     ∪ {[self]}
                else if decide (Some q = Some old)
                     then children oq ∖ {[self]} else children oq)
               ∖ {[self]}
          else if decide (q = v)
               then (if decide (Some q = Some old)
                     then children oq ∖ {[self]} else children oq)
                    ∪ {[self]}
               else if decide (Some q = Some old)
                    then children oq ∖ {[self]} else children oq)
    = children oq).
  { assert (Hnotin : q ≠ old → self ∉ children oq).
    { intros Hne Hc.
      destruct (consistent_owns _ _ _ _ Hcons Hq Hc) as (oc & Hoc & Hpc).
      rewrite Hs in Hoc. injection Hoc as <-. congruence. }
    assert (Hisin : q = old → self ∈ children oq).
    { intros ->. rewrite Hoo in Hq. by injection Hq as <-. }
    apply set_eq. intros x.
    destruct (decide (x = self)) as [->|Hx];
      repeat case_decide; simplify_eq; set_solver. }
  rewrite Hch. destruct (decide (q = self)) as [->|Hqs].
  - rewrite Hs in Hq. injection Hq as <-. rewrite <- Hp. by destruct o.
  - by destruct oq.
Qed.

Lemma set_parent_roundtrip_witness :
  set_parent 0 Examples.chain 2 (Some 4%nat)
    ≫= (λ s1, set_parent 0 s1 2 (Some 1%nat)) = Ok Examples.chain.
Proof.
  apply (set_parent_roundtrip 0 Examples.chain 2
           (Examples.link 2 {[3%nat]}) 1 4).
  - apply (bool_decide_unpack _). by vm_compute.
  - reflexivity.
  - reflexivity.
  - by eexists.
Defined.

(** X5.  Constructing an object registers it: the new object has the given
    position, the given breakable width or 0, no children and the given
    parent (the document if none is given); the parent lists it as a child
    and keeps its other children; no other object changes. *)
Theorem init_registers_with_parent document s self c p w value ov :
  s !! self = None → s !! default document value = Some ov →
  ∃ s', __init__ document s self c p w value = Ok s' ∧
    s' !! self
      = Some (mkObject Graphic c p (default 0 w)
                (Some (default document value)) ∅) ∧
    s' !! default document value
      = Some (with_children ov (children ov ∪ {[self]})) ∧
    ∀ q, q ≠ self → q ≠ default document value → s' !! q = s !! q.
Proof.
  intros Hfresh Hv. unfold __init__.
  set (o := mkObject Graphic c p (default 0 w) None ∅).
  assert (Hne : default document value ≠ self) by congruence.
  destruct (set_parent_spec document (<[self:=o]> s) self o value)
    as (s' & Hset & Hs').
  { apply lookup_insert_eq. }
  { rewrite lookup_insert_ne by done. by eexists. }
  { intros old Hold. done. }
  exists s'. split; [done|]. split; [|split].
  - rewrite Hs', lookup_insert_eq. simpl. unfold reparented. simpl.
    repeat case_decide; try congruence; done.
  - rewrite Hs', lookup_insert_ne, Hv by done. simpl. unfold reparented.
    simpl. repeat case_decide; try congruence; done.
  - intros q Hqs Hqv. rewrite Hs', lookup_insert_ne by done.
    destruct (s !! q) as [oq|]; [|done]. simpl. f_equal. unfold reparented.
    simpl. repeat case_decide; try congruence. by destruct oq.
Qed.

Lemma init_registers_with_parent_witness :
  ∃ s', __init__ 0 Examples.chain 9 Examples.all_ops (Point2 5 6) None None
          = Ok s' ∧
    s' !! 9%nat
      = Some (mkObject Graphic Examples.all_ops (Point2 5 6) 0 (Some 0%nat)
                ∅) ∧
    s' !! 0%nat
      = Some (with_children
                (mkObject Document Examples.no_ops origin 0 None {[1%nat]})
                ({[1%nat]} ∪ {[9%nat]})) ∧
    ∀ q, q ≠ 9%nat → q ≠ 0%nat → s' !! q = Examples.chain !! q.
Proof.
  exact (init_registers_with_parent 0 Examples.chain 9 Examples.all_ops
           (Point2 5 6) None None
           (mkObject Document Examples.no_ops origin 0 None {[1%nat]})
           eq_refl eq_refl).
Defined.

End SceneIndex.

(** ** The frame of an object *)

Section FrameOf.
Import Scene Rendering.

Lemma frame_loop_sound fuel : ∀ s a f,
  frame_loop fuel s (Some a) = Ok (Some f) →
  is_frame s f ∧
  (a = f ∨ ∃ oa, s !! a = Some oa ∧ type oa = Graphic ∧ parent_chain s a f).
Proof.
  induction fuel as [|fuel IH]; intros s a f; simpl; [done|].
  destruct (s !! a) as [oa|] eqn:Ha; [|done].
  destruct (type oa) as [|cs|] eqn:Ht; try done.
  - intros [= <-]. split; [by exists oa, cs|by left].
  - destruct (parent oa) as [p|] eqn:Hp; [|by destruct fuel].
    intros H. destruct (IH _ _ _ H) as [Hf [->|(op & Hop & Htp & Hc)]].
    + split; [done|]. right. exists oa. repeat split; try done.
      by eapply parent_chain_direct.
    + split; [done|]. right. exists oa. repeat split; try done.
      by eapply parent_chain_step.
Qed.

Lemma frame_loop_complete s n f :
  parent_chain s n f → is_frame s f →
  ∀ o, s !! n = Some o → ∃ fuel, frame_loop fuel s (parent o) = Ok (Some f).
Proof.
  intros Hc (fo & cs & Hf & Htf).
  induction Hc as [n o' f Hn Hp|n o' p op f Hn Hp Hop Htp Hc IH];
    intros o Ho; rewrite Hn in Ho; injection Ho as <-; rewrite Hp.
  - exists 1%nat. simpl. by rewrite Hf, Htf.
  - destruct (IH Hf op Hop) as [fuel Hfuel]. exists (S fuel). simpl.
    by rewrite Hop, Htp.
Qed.

(** X6.  [frame] finds the nearest FlowableFrame: for a graphic object it
    returns [f] exactly when following the parent fields from the object
    leads, through plain graphic objects only, to [f], and [f] is a
    FlowableFrame. *)
Theorem frame_is_nearest_flowable_frame s n o f :
  s !! n = Some o → type o ≠ Document →
  (∃ fuel, frame fuel s n = Ok (Some f)) ↔ parent_chain s n f ∧ is_frame s f.
Proof.
  intros Hn Ht. unfold frame. rewrite Hn. split.
  - intros [fuel H].
    assert (H' : frame_loop fuel s (parent o) = Ok (Some f))
      by (destruct (type o); done).
    destruct (parent o) as [p|] eqn:Hp; [|by destruct fuel].
    destruct (frame_loop_sound _ _ _ _ H') as [Hf [->|(op & Hop & Htp & Hc)]].
    + split; [|done]. by eapply parent_chain_direct.
    + split; [|done]. by eapply parent_chain_step.
  - intros [Hc Hf]. destruct (frame_loop_complete _ _ _ Hc Hf o Hn) as [fuel H].
    exists fuel. by destruct (type o).
Qed.

Lemma frame_is_nearest_flowable_frame_witness :
  (∃ fuel, frame fuel (Examples.scene Examples.two_lines (Point2 90 0) 40) 2
           = Ok (Some 1%nat)) ↔
  parent_chain (Examples.scene Examples.two_lines (Point2 90 0) 40) 2 1 ∧
  is_frame (Examples.scene Examples.two_lines (Point2 90 0) 40) 1.
Proof.
  apply (frame_is_nearest_flowable_frame
           (Examples.scene Examples.two_lines (Point2 90 0) 40) 2
           (Examples.node (Point2 90 0) 40) 1).
  - reflexivity.
  - simpl. discriminate.
Defined.

(** X7.  [frame] never returns on a cycle of parents: if a set of plain
    graphic objects is closed under taking the parent, the walk of [frame]
    from any of them is cut off at every fuel, and so [render] issues no
    call and does not return either. *)
Theorem frame_diverges_on_parent_cycle (C : obj_id → Prop) s :
  (∀ n, C n → ∃ o p, s !! n = Some o ∧ type o = Graphic ∧
                     parent o = Some p ∧ C p) →
  ∀ n fuel depth, C n →
    frame fuel s n = Timeout ∧
    render fuel (S depth) s n = mkRender [] Timeout.
Proof.
  intros Hclosed.
  assert (Hloop : ∀ fuel n, C n → frame_loop fuel s (Some n) = Timeout).
  { induction fuel as [|fuel IH]; intros n Hn; [done|]. simpl.
    destruct (Hclosed n Hn) as (o & p & Ho & Ht & Hp & HCp).
    rewrite Ho, Ht, Hp. by apply IH. }
  intros n fuel depth Hn.
  destruct (Hclosed n Hn) as (o & p & Ho & Ht & Hp & HCp).
  assert (Hf : frame fuel s n = Timeout).
  { unfold frame. rewrite Ho, Ht, Hp. by apply Hloop. }
  split; [done|]. rewrite render_unfold.
  unfold render_self, get, is_in_flowable. rewrite Ho, bind_lift_ok, Hf.
  done.
Qed.

Lemma frame_diverges_on_parent_cycle_witness :
  frame 1000 Examples.looped 1 = Timeout ∧
  render 1000 (S 0) Examples.looped 1 = mkRender [] Timeout.
Proof.
  apply (frame_diverges_on_parent_cycle (λ n, n = 1%nat) Examples.looped);
    [|reflexivity].
  intros n ->. eexists _, 1%nat. repeat split; reflexivity.
Defined.

End FrameOf.

(** ** More on rendering *)

Section RenderMore.
Import Scene Rendering Frame.

Local Ltac in_example_frame := exists 1%nat; repeat split; reflexivity.
Local Ltac example_well_formed :=
  unfold well_formed; simpl; vm_compute; intuition discriminate.

(** X8.  Outside every frame, [render] issues on the object exactly one
    full-render call, at the sum of the local positions along the owning
    chain up to the document, and then renders the children. *)
Theorem render_outside_frame fuel depth s self o k :
  s !! self = Some o → overrides (cls o) OpComplete = true →
  reaches_document k s self = true → (k < fuel)%nat →
  ∃ pos,
    chain_pos fuel s self = Ok pos ∧
    trace (render fuel (S depth) s self) =
      (self, RenderComplete pos)
        :: trace (render_children fuel depth s self) ∧
    outcome (render fuel (S depth) s self) =
      outcome (render_children fuel depth s self).
Proof.
  intros Hs Hov Hr Hlt.
  destruct (chain_pos_reaches_document _ _ _ _ Hr Hlt) as [pos Hpos].
  pose proof (frame_reaches_document _ _ _ _ Hr Hlt) as Hf.
  exists pos. split; [done|]. rewrite render_unfold.
  unfold render_self, get, is_in_flowable, doc_pos_of.
  rewrite Hs, bind_lift_ok, Hf. cbn [mbind result_bind].
  rewrite bind_lift_ok. simpl bool_decide. cbv iota.
  rewrite Hpos, bind_lift_ok. rewrite invoke_overridden by done.
  by rewrite bind_emit.
Qed.

Lemma render_outside_frame_witness :
  ∃ pos,
    chain_pos 3 Examples.items 2 = Ok pos ∧
    trace (render 3 1 Examples.items 2) =
      (2%nat, RenderComplete pos)
        :: trace (render_children 3 0 Examples.items 2) ∧
    outcome (render 3 1 Examples.items 2) =
      outcome (render_children 3 0 Examples.items 2).
Proof.
  apply (render_outside_frame 3 0 Examples.items 2
           (mkObject Graphic Examples.all_ops (mkPoint 5 6 1) 0 (Some 1%nat)
              ∅) 2); reflexivity || lia.
Defined.

(** X9.  A node that has to be split but whose type does not override
    render-before-break: [render] raises NotImplementedError at the first
    call; no further segment is drawn and the children are not rendered. *)
Theorem render_aborts_without_override fuel depth s self o cs p i0 c0 :
  placed fuel s self o cs p →
  _last_break_index_at cs (px p) = Ok i0 → cs !! i0 = Some c0 →
  line_end c0 <= px p + breakable_width o →
  overrides (cls o) OpBeforeBreak = false →
  render fuel (S depth) s self =
  mkRender [(self, before_break_segment p c0)] (Raise NotImplementedError).
Proof.
  intros Hpl Hi Hc0 Hsplit Hov.
  rewrite (render_placed _ _ _ _ _ _ _ Hpl).
  pose proof (doc_pos_of_placed _ _ _ _ _ _ _ _ Hpl Hi Hc0) as Hdoc.
  destruct Hpl as (f & Hs & Hf & Hcs & Hp).
  unfold _render_flowable, get. rewrite Hs, bind_lift_ok.
  rewrite Hf, !bind_lift_ok. rewrite Hcs, bind_lift_ok.
  rewrite Hp, bind_lift_ok.
  rewrite (dist_to_line_end_at _ _ _ _ Hi Hc0), bind_lift_ok.
  case_decide as Hneg; [lia|].
  rewrite Hi, bind_lift_ok.
  unfold controller_at at 1. rewrite Hc0, bind_lift_ok.
  rewrite Hdoc, !bind_lift_ok.
  rewrite invoke_default by done.
  unfold before_break_segment.
  replace ((px p - line_end c0) * -1) with (line_end c0 - px p) by lia.
  done.
Qed.

Lemma render_aborts_without_override_witness :
  let o := mkObject Graphic Examples.complete_only (Point2 90 0) 40
             (Some 1%nat) {[3%nat]} in
  let s := <[3%nat := Examples.link 3 ∅]>
             (<[2%nat := o]>
                (Examples.scene Examples.two_lines (Point2 90 0) 40)) in
  render 3 2 s 2 =
  mkRender [(2%nat, before_break_segment (Point2 90 0) Examples.line1)]
    (Raise NotImplementedError).
Proof.
  apply (render_aborts_without_override 3 1
           (<[3%nat := Examples.link 3 ∅]>
              (<[2%nat := mkObject Graphic Examples.complete_only
                            (Point2 90 0) 40 (Some 1%nat) {[3%nat]}]>
                 (Examples.scene Examples.two_lines (Point2 90 0) 40)))
           2 (mkObject Graphic Examples.complete_only (Point2 90 0) 40
                (Some 1%nat) {[3%nat]})
           Examples.two_lines (Point2 90 0) 0 Examples.line1).
  - in_example_frame.
  - by vm_compute.
  - reflexivity.
  - by vm_compute.
  - reflexivity.
Defined.

(** X10.  A node whose frame-local x lies outside the flowed range of its
    frame: the position lookup fails first, so [render] raises
    OutOfBoundsError without any call, and the children are not rendered. *)
Theorem render_out_of_bounds fuel depth s self o cs p :
  placed fuel s self o cs p →
  px p < 0 ∨ total_length cs < px p →
  render fuel (S depth) s self = mkRender [] (Raise OutOfBoundsError).
Proof.
  intros Hpl Hout. rewrite (render_placed _ _ _ _ _ _ _ Hpl).
  destruct Hpl as (f & Hs & Hf & Hcs & Hp).
  unfold _render_flowable, get. rewrite Hs, bind_lift_ok.
  rewrite Hf, !bind_lift_ok. rewrite Hcs, bind_lift_ok.
  rewrite Hp, bind_lift_ok.
  unfold _dist_to_line_end, _last_break_index_at.
  by rewrite decide_True.
Qed.

Lemma render_out_of_bounds_witness :
  render 3 1 (Examples.scene Examples.two_lines (Point2 181 0) 5) 2
  = mkRender [] (Raise OutOfBoundsError).
Proof.
  apply (render_out_of_bounds 3 0
           (Examples.scene Examples.two_lines (Point2 181 0) 5) 2
           (Examples.node (Point2 181 0) 5) Examples.two_lines
           (Point2 181 0)).
  - in_example_frame.
  - right. by vm_compute.
Defined.






Lemma bind_ok_inv {A B} (m : Render A) (k : A → Render B) b :
  outcome (m ≫= k) = Ok b →
  ∃ a, outcome m = Ok a ∧ outcome (k a) = Ok b ∧
       trace (m ≫= k) = trace m ++ trace (k a).
Proof.
  unfold mbind, Render_bind. destruct (outcome m) as [a| |]; try done.
  simpl. eauto.
Qed.

Lemma lift_bind_ok_inv {A B} (r : result A) (k : A → Render B) b :
  outcome (lift r ≫= k) = Ok b → ∃ a, r = Ok a ∧ lift r ≫= k = k a.
Proof.
  destruct r as [a| |]; try done. intros _. exists a. split; [done|].
  apply bind_lift_ok.
Qed.

Lemma elem_of_trace_bind_l {A B} (m : Render A) (k : A → Render B) e :
  e ∈ trace m → e ∈ trace (m ≫= k).
Proof.
  unfold mbind, Render_bind. destruct (outcome m); simpl; [|done..].
  intros H. apply elem_of_app. by left.
Qed.

Lemma invoke_calls c self d : (self, d) ∈ trace (invoke c self d).
Proof. unfold invoke. apply elem_of_trace_bind_l, list_elem_of_singleton. done. Qed.

Lemma render_flowable_calls_self fuel s self :
  outcome (_render_flowable fuel s self) = Ok tt →
  ∃ d, (self, d) ∈ trace (_render_flowable fuel s self).
Proof.
  unfold _render_flowable. intros H.
  repeat (apply lift_bind_ok_inv in H as H'; destruct H' as (? & _ & Heq);
          rewrite Heq in H |- *; clear Heq).
  case_decide.
  - apply lift_bind_ok_inv in H as H'. destruct H' as (? & _ & Heq).
    rewrite Heq. eexists. apply invoke_calls.
  - repeat (apply lift_bind_ok_inv in H as H'; destruct H' as (? & _ & Heq);
            rewrite Heq in H |- *; clear Heq).
    eexists. apply elem_of_trace_bind_l, invoke_calls.
Qed.

Lemma render_self_calls_self fuel s self :
  outcome (render_self fuel s self) = Ok tt →
  ∃ d, (self, d) ∈ trace (render_self fuel s self).
Proof.
  unfold render_self. intros H.
  repeat (apply lift_bind_ok_inv in H as H'; destruct H' as (? & _ & Heq);
          rewrite Heq in H |- *; clear Heq).
  match goal with b : bool |- _ => destruct b end.
  - by apply render_flowable_calls_self.
  - apply lift_bind_ok_inv in H as H'. destruct H' as (? & _ & Heq).
    rewrite Heq. eexists. apply invoke_calls.
Qed.

Lemma for_each_ok (l : list obj_id) (body : obj_id → Render unit) :
  outcome (for_each l body) = Ok tt →
  ∀ c, c ∈ l →
    outcome (body c) = Ok tt ∧
    ∀ e, e ∈ trace (body c) → e ∈ trace (for_each l body).
Proof.
  induction l as [|c0 l IH]; intros H c Hc; [by apply elem_of_nil in Hc|].
  cbn [for_each] in *.
  destruct (bind_ok_inv _ _ _ H) as ([] & H1 & H2 & Ht). rewrite Ht.
  apply elem_of_cons in Hc as [->|Hc].
  - split; [done|]. intros e He. apply elem_of_app. by left.
  - destruct (IH H2 c Hc) as [Hok Hin]. split; [done|].
    intros e He. apply elem_of_app. right. by apply Hin.
Qed.

Lemma descendant_first s a d :
  descendant s a d →
  ∃ o c, s !! a = Some o ∧ c ∈ children o ∧ (c = d ∨ descendant s c d).
Proof.
  induction 1 as [o c Ho Hc|om m c Hd IH Hm Hc].
  - exists o, c. eauto.
  - destruct IH as (o & c' & Ho & Hc' & [->|Hd']).
    + exists o, m. repeat split; try done. right.
      by eapply descendant_child.
    + exists o, c'. repeat split; try done. right.
      by eapply descendant_step.
Qed.

Lemma render_reaches fuel : ∀ depth s self,
  outcome (render fuel depth s self) = Ok tt →
  ∀ t, t = self ∨ descendant s self t →
  ∃ d, (t, d) ∈ trace (render fuel depth s self).
Proof.
  induction depth as [|depth IH]; intros s self H t Ht; [done|].
  rewrite render_unfold in H |- *.
  destruct (bind_ok_inv _ _ _ H) as ([] & H1 & H2 & Htr). rewrite Htr.
  destruct Ht as [->|Hd].
  - destruct (render_self_calls_self _ _ _ H1) as [d Hd].
    exists d. apply elem_of_app. by left.
  - destruct (descendant_first _ _ _ Hd) as (o & c & Ho & Hc & Hct).
    unfold render_children, children_of, get in H2 |- *.
    rewrite Ho in H2 |- *. cbn [mbind result_bind] in H2 |- *.
    rewrite bind_lift_ok in H2 |- *.
    destruct (for_each_ok _ _ H2 c) as [Hok Hin];
      [by apply elem_of_elements|].
    destruct (IH s c Hok t) as [d Hdt].
    { destruct Hct as [->|Hct]; eauto. }
    exists d. apply elem_of_app. right. by apply Hin.
Qed.

(** X14.  A [render] that returns has called exactly the object and its
    transitive children, to any depth: every one of them gets at least one
    call and no other object gets any. *)
Theorem render_calls_the_subtree fuel depth s self :
  outcome (render fuel depth s self) = Ok tt →
  ∀ t, (∃ d, (t, d) ∈ trace (render fuel depth s self))
       ↔ t = self ∨ descendant s self t.
Proof.
  intros H t. split.
  - intros [d Hd]. pose proof (targets_render fuel depth s self) as Hall.
    unfold targets_only in Hall. rewrite Forall_forall in Hall.
    by apply (Hall (t, d)).
  - by apply render_reaches.
Qed.

Lemma render_calls_the_subtree_witness :
  (∃ d, (2%nat, d) ∈ trace (render 3 3 Examples.items 1))
  ↔ 2%nat = 1%nat ∨ descendant Examples.items 1 2.
Proof.
  apply (render_calls_the_subtree 3 3 Examples.items 1). reflexivity.
Defined.

End RenderMore.

(** ** Descendants *)

Section SceneMore.
Import Scene.

(** X15.  [all_descendants] stops at the second level: when the children
    of the object are in the scene it yields an object exactly when that
    object is a child or a child of a child. *)
Theorem all_descendants_two_levels s self o :
  s !! self = Some o →
  (∀ c, c ∈ children o → is_Some (s !! c)) →
  ∃ l, all_descendants s self = Ok l ∧
    ∀ d, d ∈ l ↔
         d ∈ children o ∨
         ∃ c oc, c ∈ children o ∧ s !! c = Some oc ∧ d ∈ children oc.
Proof.
  intros Hs Hch. unfold all_descendants, children_of, get. rewrite Hs.
  cbn [mbind result_bind].
  assert (Hl : ∃ l, all_descendants_loop s (elements (children o)) = Ok l).
  { assert (Hall : ∀ c, c ∈ elements (children o) → is_Some (s !! c))
      by (intros c Hc; by apply Hch, elem_of_elements).
    induction (elements (children o)) as [|c cs IH]; [by eexists|].
    simpl. unfold children_of, get.
    destruct (Hall c ltac:(by left)) as [oc ->]. cbn [mbind result_bind].
    destruct IH as [more ->]; [intros c' Hc'; apply Hall; by right|].
    by eexists. }
  destruct Hl as [l Hl]. exists l. split; [done|]. intros d.
  rewrite (all_descendants_loop_elem _ _ _ d Hl). rewrite elem_of_elements.
  split; (intros [H|(c & oc & Hc & Hoc & Hd)]; [by left|right]);
    exists c, oc; repeat split; try done; by apply elem_of_elements.
Qed.

Lemma all_descendants_two_levels_witness :
  ∃ l, all_descendants Examples.chain 1 = Ok l ∧
    ∀ d, d ∈ l ↔
         d ∈ children (Examples.link 1 {[2%nat]}) ∨
         ∃ c oc, c ∈ children (Examples.link 1 {[2%nat]}) ∧
                 Examples.chain !! c = Some oc ∧ d ∈ children oc.
Proof.
  apply (all_descendants_two_levels Examples.chain 1
           (Examples.link 1 {[2%nat]})).
  - reflexivity.
  - intros c Hc. change (c ∈ ({[2%nat]} : gset nat)) in Hc.
    apply elem_of_singleton in Hc as ->. by eexists.
Defined.

End SceneMore.

(** ** More on anchored points *)

Section AnchoredMore.
Import Anchored.



End AnchoredMore.

(** ** Intervals *)

Section Intervals.
Import Interval.

Lemma match_digits_end_digits s : ∀ ds,
  match_digits_end s = Some ds → Forall (λ c, is_digit c = true) ds.
Proof.
  induction s as [|c rest IH]; intros ds; simpl.
  - intros [= <-]. constructor.
  - destruct (is_digit c) eqn:Hc.
    + destruct (match_digits_end rest) as [ds'|]; [|done].
      simpl. intros [= <-]. constructor; [done|]. by apply IH.
    + case_bool_decide; [|done]. intros [= <-]. constructor.
Qed.

Lemma foldl_digits_ge ds : ∀ acc,
  Forall (λ c, is_digit c = true) ds → 1 <= acc →
  1 <= foldl (λ acc c, 10 * acc + (Z.of_nat (nat_of_ascii c) - 48)) acc ds.
Proof.
  induction ds as [|c ds IH]; intros acc Hall Hacc; simpl; [done|].
  inversion Hall as [|? ? Hc Hds]; subst. apply IH; [done|].
  unfold is_digit in Hc. apply bool_decide_eq_true in Hc. lia.
Qed.

Lemma int_positive n ds :
  is_nonzero_digit n = true → Forall (λ c, is_digit c = true) ds →
  1 <= int (n :: ds).
Proof.
  intros Hn Hds. unfold int. simpl. apply foldl_digits_ge; [done|].
  unfold is_nonzero_digit in Hn. apply bool_decide_eq_true in Hn. lia.
Qed.

Lemma init_inv specifier i :
  __init__ specifier = inr i →
  ∃ d q n rest ds,
    specifier = String d (String q (String n rest)) ∧
    d ∈ ["a"; "d"]%char ∧ q ∈ ["m"; "M"; "P"; "d"; "A"]%char ∧
    is_nonzero_digit n = true ∧ match_digits_end rest = Some ds ∧
    i = mkInterval d q (int (n :: ds)) ∧
    ¬ (simple_distance i ∈ _perfectable_distances ∧
       q ∉ ["P"; "d"; "A"]%char).
Proof.
  unfold __init__, _shorthand_regex_match.
  destruct specifier as [|d [|q [|n rest]]]; try done.
  destruct (bool_decide (d ∈ ["a"; "d"]%char)) eqn:Hd; [|done].
  destruct (bool_decide (q ∈ ["m"; "M"; "P"; "d"; "A"]%char)) eqn:Hq; [|done].
  destruct (is_nonzero_digit n) eqn:Hn; [|done]. simpl.
  destruct (match_digits_end rest) as [ds|] eqn:Hds; [|done]. simpl.
  destruct (bool_decide (simple_distance _ ∈ _perfectable_distances)
            && negb (bool_decide (q ∈ ["P"; "d"; "A"]%char))) eqn:Hv;
    [done|].
  intros [= <-]. exists d, q, n, rest, ds.
  apply bool_decide_eq_true in Hd, Hq. repeat split; try done.
  intros [H1 H2]. apply andb_false_iff in Hv as [Hv|Hv].
  - by apply bool_decide_eq_false in Hv.
  - apply negb_false_iff, bool_decide_eq_true in Hv. done.
Qed.

(** X20.  Every interval the constructor returns is well formed: its
    direction is a or d, its quality one of m, M, P, d, A, its distance at
    least 1, its simple distance between 1 and 7, and a unison, fourth or
    fifth (or a compound of one) is never minor or major. *)
Theorem constructed_interval_well_formed specifier i :
  __init__ specifier = inr i →
  direction i ∈ ["a"; "d"]%char ∧
  quality i ∈ ["m"; "M"; "P"; "d"; "A"]%char ∧
  1 <= distance i ∧
  1 <= simple_distance i <= 7 ∧
  (simple_distance i ∈ [1; 4; 5] →
   quality i ≠ "m"%char ∧ quality i ≠ "M"%char).
Proof.
  intros H. destruct (init_inv _ _ H)
    as (d & q & n & rest & ds & _ & Hd & Hq & Hn & Hds & -> & Hv).
  simpl in *. repeat split; try done.
  - apply int_positive; [done|]. by eapply match_digits_end_digits.
  - unfold simple_distance. simpl.
    pose proof (Z.mod_pos_bound (int (n :: ds) - 1) 7). lia.
  - unfold simple_distance. simpl.
    pose proof (Z.mod_pos_bound (int (n :: ds) - 1) 7). lia.
  - intros ->. apply Hv. split; [done|].
    intros Hin. repeat (apply elem_of_cons in Hin as [Hin|Hin]; [done|]).
    by apply elem_of_nil in Hin.
  - intros ->. apply Hv. split; [done|].
    intros Hin. repeat (apply elem_of_cons in Hin as [Hin|Hin]; [done|]).
    by apply elem_of_nil in Hin.
Qed.

Lemma constructed_interval_well_formed_witness :
  let i := mkInterval "d" "A" 12 in
  direction i ∈ ["a"; "d"]%char ∧
  quality i ∈ ["m"; "M"; "P"; "d"; "A"]%char ∧
  1 <= distance i ∧
  1 <= simple_distance i <= 7 ∧
  (simple_distance i ∈ [1; 4; 5] →
   quality i ≠ "m"%char ∧ quality i ≠ "M"%char).
Proof.
  apply (constructed_interval_well_formed "dA12" (mkInterval "d" "A" 12)).
  reflexivity.
Defined.

(** X21.  The simple distance collapses compound intervals: it is the
    distance itself up to a seventh, and it does not change when the
    distance grows by any number of octaves (multiples of 7). *)
Theorem simple_distance_collapses_octaves (i j : Interval) (octaves : Z) :
  1 <= distance i →
  distance j = distance i + 7 * octaves →
  simple_distance j = simple_distance i ∧
  (distance i <= 7 → simple_distance i = distance i).
Proof.
  intros Hi Hj. unfold simple_distance. rewrite Hj. split.
  - f_equal. replace (distance i + 7 * octaves - 1)
      with (distance i - 1 + octaves * 7) by lia.
    by rewrite Z_mod_plus_full.
  - intros Hle. rewrite Z.mod_small by lia. lia.
Qed.

Lemma simple_distance_collapses_octaves_witness :
  simple_distance (mkInterval "a" "M" 10) = simple_distance (mkInterval "a" "M" 3)
  ∧ (3 <= 7 → simple_distance (mkInterval "a" "M" 3) = 3).
Proof.
  apply (simple_distance_collapses_octaves (mkInterval "a" "M" 3)
           (mkInterval "a" "M" 10) 1).
  - simpl. lia.
  - reflexivity.
Defined.

(** X22.  [quality_in_english] has no entry for perfect intervals: on an
    interval the constructor returned it raises KeyError exactly when the
    quality is P, and returns a name otherwise. *)
Theorem quality_in_english_misses_perfect specifier i :
  __init__ specifier = inr i →
  (quality_in_english i = inl KeyError ↔ quality i = "P"%char) ∧
  (quality i ≠ "P"%char → ∃ name, quality_in_english i = inr name).
Proof.
  intros H. destruct (init_inv _ _ H)
    as (d & q & n & rest & ds & _ & _ & Hq & _ & _ & -> & _).
  unfold quality_in_english. simpl.
  assert (Hcases : q = "m"%char ∨ q = "M"%char ∨ q = "P"%char
                   ∨ q = "d"%char ∨ q = "A"%char).
  { repeat (apply elem_of_cons in Hq as [Hq|Hq]; [tauto|]).
    by apply elem_of_nil in Hq. }
  destruct Hcases as [->|[->|[->|[->| ->]]]]; simpl;
    (split; [split; (done || congruence)|]); intros Hne; (done || eauto).
Qed.

Lemma quality_in_english_misses_perfect_witness :
  (quality_in_english (mkInterval "a" "P" 5) = inl KeyError
   ↔ quality (mkInterval "a" "P" 5) = "P"%char) ∧
  (quality (mkInterval "a" "P" 5) ≠ "P"%char →
   ∃ name, quality_in_english (mkInterval "a" "P" 5) = inr name).
Proof.
  apply (quality_in_english_misses_perfect "aP5" (mkInterval "a" "P" 5)).
  reflexivity.
Defined.

Lemma match_digits_end_newline rest : ∀ ds,
  match_digits_end rest = Some ds →
  (∀ r, rest ≠ r +:+ String newline EmptyString) →
  match_digits_end (rest +:+ String newline EmptyString) = Some ds.
Proof.
  induction rest as [|c rest IH]; intros ds; simpl.
  - intros [= <-] _. done.
  - destruct (is_digit c) eqn:Hc.
    + destruct (match_digits_end rest) as [ds'|] eqn:Hds; [|done].
      simpl. intros [= <-] Hne. rewrite (IH ds' eq_refl); [done|].
      intros r ->. by apply (Hne (String c r)).
    + case_bool_decide as Hnl; [|done]. destruct Hnl as [-> ->].
      intros _ Hne. by destruct (Hne EmptyString).
Qed.

(** X23.  The end anchor of the pattern also matches before a final
    newline: a specifier the constructor accepts, and which does not itself
    end in a newline, is accepted with the same result when a newline is
    appended to it. *)
Theorem trailing_newline_accepted specifier i :
  __init__ specifier = inr i →
  (∀ r, specifier ≠ r +:+ String newline EmptyString) →
  __init__ (specifier +:+ String newline EmptyString) = inr i.
Proof.
  intros H Hne. destruct (init_inv _ _ H)
    as (d & q & n & rest & ds & -> & Hd & Hq & Hn & Hds & Hi & Hv).
  unfold __init__, _shorthand_regex_match in *. simpl in *.
  rewrite (match_digits_end_newline rest ds Hds).
  - by rewrite Hds in H.
  - intros r ->. by apply (Hne (String d (String q (String n r)))).
Qed.

Lemma trailing_newline_accepted_witness :
  __init__ ("aM3" +:+ String newline EmptyString)
  = inr (mkInterval "a" "M" 3).
Proof.
  apply (trailing_newline_accepted "aM3" (mkInterval "a" "M" 3)).
  - reflexivity.
  - intros r Hr. destruct r as [|? [|? [|? r]]]; try discriminate.
    simpl in Hr. injection Hr as _ _ _ Hr. by destruct r.
Defined.

End Intervals.

(** ** Where exact arithmetic is needed *)

Section FloatArithmetic.
Import Scene Rendering Frame.
Import PrimFloat.



(** C10 fails on floats: for a NewLine at x = 32.2 on a page of live width
    215.9 the length is the rounded difference, and the x of [doc_end_pos]
    is 215.89999999999998, not the live width. *)
Lemma new_line_ends_at_live_width_counterexample :
  let l := FloatUnits.mkNewLine
             (FloatUnits.mkPoint 32.2%float 0%float 0) 215.9%float 30%float in
  FloatUnits.length l = (215.9 - 32.2)%float ∧
  FloatUnits.px (FloatUnits.doc_end_pos l) = 215.89999999999998%float ∧
  PrimFloat.eqb (FloatUnits.px (FloatUnits.doc_end_pos l))
    (FloatUnits.live_width l) = false.
Proof. repeat split; by vm_compute. Qed.

End FloatArithmetic.
